(** * Template catalog: search and filter pipeline, and the catalog
      maintenance script

    A shallow embedding of
    - the template grid component (deduplication of the fetched catalog,
      the Fuse.js index configuration, the debounced query, the filter
      pipeline and the effect that publishes the result to the store),
    - the [useFuseSearch] hook, and
    - the [dedupe-and-sort-meta.js] maintenance script,
    followed by the properties established about them.

    JavaScript strings are modelled by [string]; [Map] by an insertion-ordered
    association list (a [set] on a present key replaces the value in place, a
    [set] on an absent key appends); [Set] by [gset string]; arrays by lists. *)

From stdpp Require Import gmap strings list sorting pretty.
From Stdlib Require Import Ascii QArith.

Close Scope Q_scope.

Open Scope string_scope.
Open Scope list_scope.
Open Scope nat_scope.

(** ** JavaScript helpers *)

(** A string is falsy exactly when it is empty. *)
Definition falsy (s : string) : bool := bool_decide (s = "").
Definition truthy (s : string) : bool := negb (falsy s).

(** White space removed by [String.prototype.trim], for code units below 256:
    TAB, LF, VT, FF, CR, SPACE and NBSP. *)
Definition isWhiteSpace (c : ascii) : bool :=
  let n := Ascii.N_of_ascii c in
  bool_decide (n = 9 ∨ n = 10 ∨ n = 11 ∨ n = 12 ∨ n = 13 ∨ n = 32 ∨ n = 160)%N.

Fixpoint trimStart (s : string) : string :=
  match s with
  | EmptyString => EmptyString
  | String c s' => if isWhiteSpace c then trimStart s' else s
  end.

Definition trimEnd (s : string) : string :=
  String.rev (trimStart (String.rev s)).

Definition trim (s : string) : string := trimEnd (trimStart s).

(** [Array.prototype.includes] and [Array.prototype.every]. *)
Definition includes (x : string) (l : list string) : bool :=
  bool_decide (x ∈ l).

Definition every {A : Type} (p : A → bool) (l : list A) : bool := forallb p l.

(** ** Template records *)

Record Links := {
  github : option string;
  website : option string;
  docs : option string
}.

Record Template := {
  id : string;
  name : string;
  description : string;
  version : string;
  logo : option string;
  links : Links;
  tags : list string
}.

(** The object spread [{...template, id: k}]. *)
Definition with_id (template : Template) (k : string) : Template :=
  {| id := k;
     name := name template;
     description := description template;
     version := version template;
     logo := logo template;
     links := links template;
     tags := tags template |}.

(** ** JavaScript [Map] with string keys *)

Section JsMap.
Context {V : Type}.

Definition map_has (k : string) (m : list (string * V)) : bool :=
  bool_decide (k ∈ m.*1).

Fixpoint map_set (k : string) (v : V) (m : list (string * V))
  : list (string * V) :=
  match m with
  | [] => [(k, v)]
  | (k', v') :: m' =>
      if decide (k' = k) then (k, v) :: m' else (k', v') :: map_set k v m'
  end.

Definition map_values (m : list (string * V)) : list V := m.*2.
End JsMap.

(** ** Catalog normalizer ([uniqueTemplates]) *)

Record NormState := {
  templateMap : list (string * Template);
  seenNames : gset string
}.

Definition norm_init : NormState :=
  {| templateMap := []; seenNames := ∅ |}.

(** The key chosen for [template] at position [index]. *)
Definition uniqueKey (st : NormState) (index : nat) (template : Template)
  : string :=
  if map_has (id template) (templateMap st) || falsy (id template) then
    if bool_decide (name template ∈ seenNames st)
    then name template +:+ "-" +:+ pretty index
    else name template
  else id template.

(** One iteration of the [forEach] callback. *)
Definition norm_step (st : NormState) (index : nat) (template : Template)
  : NormState :=
  let k := uniqueKey st index template in
  {| templateMap := map_set k (with_id template k) (templateMap st);
     seenNames := {[name template]} ∪ seenNames st |}.

Fixpoint forEach_from (index : nat) (templates : list Template)
    (st : NormState) : NormState :=
  match templates with
  | [] => st
  | template :: rest =>
      forEach_from (S index) rest (norm_step st index template)
  end.

Definition uniqueTemplates (templates : list Template) : list Template :=
  match templates with
  | [] => []
  | _ => map_values (templateMap (forEach_from 0 templates norm_init))
  end.

(** What the loop maintains: keys are pairwise distinct, every stored
    record carries its key as [id], and is an input record but for [id]. *)
Definition norm_inv (input : list Template) (st : NormState) : Prop :=
  NoDup (templateMap st).*1
  ∧ ∀ k v, (k, v) ∈ templateMap st →
      id v = k ∧ ∃ t, t ∈ input ∧ v = with_id t k.

(** A record with only the fields the examples vary. *)
Definition mkT (i n : string) (tg : list string) : Template :=
  {| id := i; name := n; description := ""; version := "1.0.0";
     logo := None;
     links := {| github := None; website := None; docs := None |};
     tags := tg |}.

(** ** Fuse.js index

    Fuse.js is an external library: an index is the indexed collection
    with its options, and its [search] method is a parameter of the
    development. A result carries the matched item and its position in the
    collection (the score, a floating point number, is left out). *)

Record FuseKey := { key : string; weight : Q }.

Record FuseOptions := {
  keys : list FuseKey;
  threshold : Q;
  ignoreLocation : bool;
  includeScore : bool;
  minMatchCharLength : nat
}.

Record Fuse := { collection : list Template; options : FuseOptions }.

Record FuseResult := { item : Template; refIndex : nat }.

(** Weight configured for a field, if the field is a search key. *)
Definition weight_of (field : string) (o : FuseOptions) : option Q :=
  weight <$> List.find (λ k, bool_decide (key k = field)) (keys o).

(** Options of the index built by the template grid. *)
Definition gridOptions : FuseOptions :=
  {| keys := [ {| key := "name"; weight := (7 # 10)%Q |};
               {| key := "description"; weight := (2 # 10)%Q |};
               {| key := "tags"; weight := (1 # 10)%Q |} ];
     threshold := (3 # 10)%Q;
     ignoreLocation := true;
     includeScore := true;
     minMatchCharLength := 1 |}.

(** Options of the index built by the [useFuseSearch] hook (the options the
    record above has no field for are left out). *)
Definition hookOptions : FuseOptions :=
  {| keys := [ {| key := "name"; weight := (2 # 1)%Q |};
               {| key := "description"; weight := (1 # 1)%Q |};
               {| key := "tags"; weight := (15 # 10)%Q |};
               {| key := "id"; weight := (5 # 10)%Q |} ];
     threshold := (4 # 10)%Q;
     ignoreLocation := true;
     includeScore := true;
     minMatchCharLength := 1 |}.

(** The template grid's [fuse] memo: [null] for an empty catalog. *)
Definition fuse (uniqueTemplates : list Template) : option Fuse :=
  match uniqueTemplates with
  | [] => None
  | _ => Some {| collection := uniqueTemplates; options := gridOptions |}
  end.

(** ** Filter pipeline ([filteredTemplates]) *)

Section Pipeline.
Variable fuse_search : Fuse → string → list FuseResult.

(** Step 1: the working set. *)
Definition searchStep (uniqueTemplates : list Template)
    (debouncedSearchQuery : string) : list Template :=
  if truthy (trim debouncedSearchQuery) then
    match fuse uniqueTemplates with
    | Some f => item <$> fuse_search f debouncedSearchQuery
    | None => uniqueTemplates
    end
  else uniqueTemplates.

(** The predicate of the tag filter:
    [selectedTags.every((tag) => template.tags.includes(tag))]. *)
Definition hasAllTags (selectedTags : list string) (template : Template)
  : bool :=
  every (λ tag, includes tag (tags template)) selectedTags.

(** Step 2: the tag filter. *)
Definition tagStep (selectedTags : list string) (filtered : list Template)
  : list Template :=
  if bool_decide (0 < length selectedTags)
  then filter (λ template, hasAllTags selectedTags template) filtered
  else filtered.

Definition filteredTemplates (uniqueTemplates : list Template)
    (debouncedSearchQuery : string) (selectedTags : list string)
  : list Template :=
  match uniqueTemplates with
  | [] => []
  | _ => tagStep selectedTags (searchStep uniqueTemplates debouncedSearchQuery)
  end.
End Pipeline.

(** ** The [useFuseSearch] hook *)

Module FuseHook.
Section Hook.
Variable fuse_search : Fuse → string → list FuseResult.

Definition fuse (templates : list Template) : option Fuse :=
  match templates with
  | [] => None
  | _ => Some {| collection := templates; options := hookOptions |}
  end.

Definition search (templates : list Template) (query : string)
  : list Template :=
  match fuse templates with
  | None => templates
  | Some f =>
      if negb (truthy (trim query)) then templates
      else item <$> fuse_search f query
  end.

Definition searchWithDetails (templates : list Template) (query : string)
  : list FuseResult :=
  match fuse templates with
  | None => []
  | Some f =>
      if negb (truthy (trim query)) then []
      else fuse_search f query
  end.
End Hook.
End FuseHook.

(** ** View state store and the publishing effect *)

Module Store.
(** Modelled from the spec: the store module (imported as [@/store]) is
    not among the sources. The view state holds the filtered list and its
    count next to the query state; each setter replaces one field. *)
Record t := {
  templates : list Template;
  filteredTemplates : list Template;
  templatesCount : nat;
  searchQuery : string;
  selectedTags : list string
}.

Definition setFilteredTemplates (x : list Template) (s : t) : t :=
  {| templates := templates s;
     filteredTemplates := x;
     templatesCount := templatesCount s;
     searchQuery := searchQuery s;
     selectedTags := selectedTags s |}.

Definition setTemplatesCount (n : nat) (s : t) : t :=
  {| templates := templates s;
     filteredTemplates := filteredTemplates s;
     templatesCount := n;
     searchQuery := searchQuery s;
     selectedTags := selectedTags s |}.

End Store.

(** The effect run when [filteredTemplates] changes: it hands the list to
    [setFilteredTemplates] and its length to [setTemplatesCount]. The
    store once both calls have returned. *)
Definition publishEffect (filtered : list Template) (s : Store.t) : Store.t :=
  let s1 := Store.setFilteredTemplates filtered s in
  Store.setTemplatesCount (length filtered) s1.

Definition published (filtered : list Template) (s : Store.t) : Store.t :=
  publishEffect filtered s.

Module Sink.
(** Modelled from the spec: how the view state reaches its consumers is
    decided by the store module and the rendering layer, which are not
    among the sources. Following the view state sink of the spec, a
    consumer reads a snapshot of the items and their count; a mutation of
    the query text (as the debounced query) or of the tag selection
    recomputes the filtered result, the effect publishes it, and the
    snapshot is republished once, after the effect has run. *)
Record Snapshot := { items : list Template; count : nat }.

Definition snapshot (s : Store.t) : Snapshot :=
  {| items := Store.filteredTemplates s; count := Store.templatesCount s |}.

Inductive Mutation :=
| SetQuery (text : string)
| SetTags (tags : list string).

(** The inputs of the filter pipeline next to the catalog. *)
Record Inputs := {
  debouncedSearchQuery : string;
  selectedTags : list string
}.

Definition mutate (i : Inputs) (m : Mutation) : Inputs :=
  match m with
  | SetQuery text =>
      {| debouncedSearchQuery := text; selectedTags := selectedTags i |}
  | SetTags tags =>
      {| debouncedSearchQuery := debouncedSearchQuery i;
         selectedTags := tags |}
  end.

Section Republish.
Variable fuse_search : Fuse → string → list FuseResult.
Variable catalog : list Template.

(** The result of the pipeline for the given inputs. *)
Definition result (i : Inputs) : list Template :=
  filteredTemplates fuse_search catalog
    (debouncedSearchQuery i) (selectedTags i).

(** The snapshots a consumer reads, one for each mutation. *)
Fixpoint republish (mutations : list Mutation) (i : Inputs) (s : Store.t)
  : list Snapshot :=
  match mutations with
  | [] => []
  | m :: rest =>
      let i' := mutate i m in
      let s' := published (result i') s in
      snapshot s' :: republish rest i' s'
  end.
End Republish.
End Sink.

(** ** Query debouncer ([useDebounce])

    Time is a natural number of milliseconds. The host keeps the pending
    timeouts; a timer callback runs at the time it is due. [render] is a
    render of the component with the given [value] prop: the effect's
    dependencies are compared with those of the previous render, and only
    when the value changed is the previous effect cleaned up (its timeout
    cleared) and the effect run again (a new timeout set). The [delay] prop
    is the same at every render. *)

Module Debounce.
Record Timer := { handle : nat; due : nat; captured : string }.

Record State := {
  now : nat;
  value : string;               (* the [value] prop of the last render *)
  debouncedValue : string;      (* the [useState] cell *)
  timers : list Timer;          (* pending timeouts, in scheduling order *)
  handler : option nat;         (* handle held by the pending cleanup *)
  next_handle : nat;
  emitted : list (nat * string) (* [setDebouncedValue] calls made by timer
                                   callbacks: time and value *)
}.

Section WithDelay.
Variable delay : nat.

(** [const handler = setTimeout(() => setDebouncedValue(v), delay)]. *)
Definition setTimeout (v : string) (s : State) : State :=
  {| now := now s;
     value := value s;
     debouncedValue := debouncedValue s;
     timers := timers s ++
               [{| handle := next_handle s; due := now s + delay;
                   captured := v |}];
     handler := Some (next_handle s);
     next_handle := S (next_handle s);
     emitted := emitted s |}.

(** The cleanup [clearTimeout(handler)]. *)
Definition clearTimeout (h : option nat) (s : State) : State :=
  {| now := now s;
     value := value s;
     debouncedValue := debouncedValue s;
     timers := filter (λ tm, Some (handle tm) ≠ h) (timers s);
     handler := None;
     next_handle := next_handle s;
     emitted := emitted s |}.

(** A timer callback runs: [setDebouncedValue(captured)]. *)
Definition fire (s : State) (tm : Timer) : State :=
  {| now := now s;
     value := value s;
     debouncedValue := captured tm;
     timers := timers s;
     handler := handler s;
     next_handle := next_handle s;
     emitted := emitted s ++ [(due tm, captured tm)] |}.

(** Time passes until [t]: the timeouts due by then run, the others
    stay pending. *)
Definition advance (t : nat) (s : State) : State :=
  let t' := t `max` now s in
  foldl fire
    {| now := t';
       value := value s;
       debouncedValue := debouncedValue s;
       timers := filter (λ tm, ¬ (due tm ≤ t')%nat) (timers s);
       handler := handler s;
       next_handle := next_handle s;
       emitted := emitted s |}
    (filter (λ tm, (due tm ≤ t')%nat) (timers s)).

Definition set_value (v : string) (s : State) : State :=
  {| now := now s;
     value := v;
     debouncedValue := debouncedValue s;
     timers := timers s;
     handler := handler s;
     next_handle := next_handle s;
     emitted := emitted s |}.

(** First render at time [t]: the state cell is seeded with the value
    and the effect runs. *)
Definition mount (t : nat) (v : string) : State :=
  setTimeout v
    {| now := t; value := v; debouncedValue := v; timers := [];
       handler := None; next_handle := 0; emitted := [] |}.

(** A later render at time [t] with value [v]. *)
Definition render (t : nat) (v : string) (s : State) : State :=
  let s1 := advance t s in
  if decide (v = value s1) then s1
  else setTimeout v (clearTimeout (handler s1) (set_value v s1)).

Definition run (events : list (nat * string)) (s : State) : State :=
  foldl (λ s e, render e.1 e.2 s) s events.

(** Each update of the list arrives at or after [t] and sooner than
    [delay] after the previous one (after [t] for the first). *)
Fixpoint rapid (t : nat) (events : list (nat * string)) : Prop :=
  match events with
  | [] => True
  | (t', _) :: rest => (t ≤ t')%nat ∧ (t' < t + delay)%nat ∧ rapid t' rest
  end.

(** Each update of the list changes the value ([v] is the value before
    the first). *)
Fixpoint changing (v : string) (events : list (nat * string)) : Prop :=
  match events with
  | [] => True
  | (_, v') :: rest => v' ≠ v ∧ changing v' rest
  end.
End WithDelay.

(** The call site: [useDebounce(searchQuery, 300)]. *)
Definition quietInterval : nat := 300.

(** At most one timeout is pending, and it is the one the cleanup of the
    last effect would clear. *)
Definition one_timer (s : State) : Prop :=
  timers s = [] ∨ ∃ tm, timers s = [tm] ∧ handler s = Some (handle tm).

(** The last render was at time [t] with value [v], its timeout is the
    only one pending, and [E] was emitted so far. *)
Definition pending (delay : nat) (s : State) (t : nat) (v : string)
    (E : list (nat * string)) : Prop :=
  now s = t ∧ value s = v ∧ emitted s = E
  ∧ ∃ h, timers s = [{| handle := h; due := t + delay; captured := v |}]
         ∧ handler s = Some h.
End Debounce.

(** ** Maintenance script ([dedupe-and-sort-meta.js]) *)

(** [String.prototype.toLowerCase] on code units below 256: A-Z, and the
    Latin-1 capitals other than the multiplication sign. *)
Definition lowerChar (c : ascii) : ascii :=
  let n := Ascii.N_of_ascii c in
  if bool_decide ((65 ≤ n ∧ n ≤ 90) ∨ (192 ≤ n ∧ n ≤ 222 ∧ n ≠ 215))%N
  then Ascii.ascii_of_N (n + 32)
  else c.

Fixpoint toLowerCase (s : string) : string :=
  match s with
  | EmptyString => EmptyString
  | String c s' => String (lowerChar c) (toLowerCase s')
  end.

Module Meta.
(** An object of the parsed array: its [id] and [name] properties, when
    present, are strings; [rest] stands for its other properties. *)
Record Entry := {
  id : option string;
  name : option string;
  rest : string
}.

(** An element of the parsed array: [NotObject] is [null] or a value
    whose [typeof] is not ["object"]. *)
Inductive Item :=
| NotObject
| Obj (e : Entry).

Inductive Json :=
| JArray (items : list Item)
| JOther.

Inductive Warning :=
| SkipInvalid (index : nat)
| SkipNoId (index : nat) (name : string)
| DuplicateId (id name : string).

Record Dup := { dup_id : string; dup_name : string; originalIndex : nat }.

Record Loop := {
  seenIds : gset string;
  duplicates : list Dup;
  unique : list Entry;
  warnings : list Warning
}.

Definition loop_init : Loop :=
  {| seenIds := ∅; duplicates := []; unique := []; warnings := [] |}.

(** [item.name || "Unknown"]. *)
Definition nameOrUnknown (e : Entry) : string :=
  match name e with
  | Some n => if falsy n then "Unknown" else n
  | None => "Unknown"
  end.

(** [item.id] of an entry that was kept (kept entries have one). *)
Definition idOf (e : Entry) : string := default "" (id e).

Definition warn (w : Warning) (st : Loop) : Loop :=
  {| seenIds := seenIds st; duplicates := duplicates st;
     unique := unique st; warnings := warnings st ++ [w] |}.

(** One iteration of the [forEach] callback. *)
Definition loop_step (st : Loop) (index : nat) (item : Item) : Loop :=
  match item with
  | NotObject => warn (SkipInvalid index) st
  | Obj e =>
      match id e with
      | None => warn (SkipNoId index (nameOrUnknown e)) st
      | Some i =>
          if falsy i then warn (SkipNoId index (nameOrUnknown e)) st
          else if bool_decide (i ∈ seenIds st) then
            warn (DuplicateId i (nameOrUnknown e))
              {| seenIds := seenIds st;
                 duplicates := duplicates st ++
                   [{| dup_id := i; dup_name := nameOrUnknown e;
                       originalIndex := index |}];
                 unique := unique st;
                 warnings := warnings st |}
          else
            {| seenIds := {[i]} ∪ seenIds st;
               duplicates := duplicates st;
               unique := unique st ++ [e];
               warnings := warnings st |}
      end
  end.

Fixpoint forEach_from (index : nat) (data : list Item) (st : Loop) : Loop :=
  match data with
  | [] => st
  | item :: data' => forEach_from (S index) data' (loop_step st index item)
  end.

Inductive Failure := FileNotFound | InvalidJSON | NotAnArray.

Record Stats := {
  original : nat;
  duplicatesRemoved : nat;
  final : nat;
  stat_duplicates : list Dup
}.

(** The file system: the files and the [writeFileSync] calls made so
    far, in order. *)
Record World := {
  files : gmap string string;
  writes : list (string * string)
}.

Definition writeFileSync (path content : string) (w : World) : World :=
  {| files := <[path := content]> (files w);
     writes := writes w ++ [(path, content)] |}.

Inductive Outcome :=
| Exit1 (f : Failure)
| Return (stats : Stats) (warned : list Warning) (w : World).

Section Script.
(** [JSON.parse] ([None] when it throws), [JSON.stringify(_, null, 2)]
    and [String.prototype.localeCompare] belong to the host. *)
Variable JSON_parse : string → option Json.
Variable JSON_stringify : list Entry → string.
Variable localeCompare : string → string → Z.

(** The comparator passed to [sort]. *)
Definition compareIds (a b : Entry) : Z :=
  localeCompare (toLowerCase (idOf a)) (toLowerCase (idOf b)).

(** The order the comparator induces. *)
Definition idLe (a b : Entry) : Prop := (compareIds a b ≤ 0)%Z.

(** [Array.prototype.sort] is stable; a stable insertion sort. *)
Fixpoint insert (a : Entry) (l : list Entry) : list Entry :=
  match l with
  | [] => [a]
  | b :: l' =>
      if bool_decide (compareIds a b ≤ 0)%Z then a :: b :: l'
      else b :: insert a l'
  end.

Definition sort (l : list Entry) : list Entry := foldr insert [] l.

Definition backupPathOf (filePath : string) (now : N) : string :=
  filePath +:+ ".backup." +:+ pretty now.

(** [now] is the value of [Date.now()]. The ids of the parsed objects,
    when present, are strings (see [Entry]), and the calls of [fs] on an
    existing file do not throw. *)
Definition dedupeAndSortMeta (filePath : string) (now : N) (w : World)
  : Outcome :=
  match files w !! filePath with
  | None => Exit1 FileNotFound
  | Some fileContent =>
      match JSON_parse fileContent with
      | None => Exit1 InvalidJSON
      | Some JOther => Exit1 NotAnArray
      | Some (JArray data) =>
          let st := forEach_from 0 data loop_init in
          let sorted := sort (unique st) in
          let w1 := writeFileSync (backupPathOf filePath now) fileContent w in
          let w2 := writeFileSync filePath (JSON_stringify sorted) w1 in
          Return {| original := length data;
                    duplicatesRemoved := length (duplicates st);
                    final := length sorted;
                    stat_duplicates := duplicates st |}
                 (warnings st) w2
      end
  end.
End Script.

(** An item the loop keeps or counts as a duplicate: an object with a
    non-empty [id]. *)
Definition valid (item : Item) : option Entry :=
  match item with
  | NotObject => None
  | Obj e =>
      match id e with
      | Some i => if falsy i then None else Some e
      | None => None
      end
  end.
End Meta.

(** ** The normalizer on an untyped array

    The catalog comes from [response.json()], so at run time the elements
    of [templates] need not have the shape of [Template]. The loop sees an
    element through its [id] and [name] properties only. [Nullish] is
    [null] or [undefined]: reading [template.id] throws a [TypeError].
    Any other element is a [Value]: an object with its [id] and [name]
    (strings when present) and its other properties, or a primitive, which
    has neither. A key of the map is [undefined] or a string. *)

Module Raw.
Inductive Item :=
| Nullish
| Value (e : Meta.Entry).

(** [{...template, id: uniqueKey}]. *)
Record Stored := { stored_id : option string; stored_from : Meta.Entry }.

Definition has (k : option string) (m : list (option string * Stored))
  : bool :=
  bool_decide (k ∈ m.*1).

Fixpoint set (k : option string) (v : Stored)
    (m : list (option string * Stored)) : list (option string * Stored) :=
  match m with
  | [] => [(k, v)]
  | (k', v') :: m' =>
      if decide (k' = k) then (k, v) :: m' else (k', v') :: set k v m'
  end.

Record State := {
  templateMap : list (option string * Stored);
  seenNames : gset (option string)
}.

Definition init : State := {| templateMap := []; seenNames := ∅ |}.

(** [!uniqueKey]: [undefined] and the empty string are falsy. *)
Definition falsyKey (k : option string) : bool :=
  match k with
  | None => true
  | Some s => falsy s
  end.

(** The template literal [`${template.name}-${index}`]. *)
Definition nameIndex (n : option string) (index : nat) : string :=
  default "undefined" n +:+ "-" +:+ pretty index.

Definition uniqueKey (st : State) (index : nat) (template : Meta.Entry)
  : option string :=
  if has (Meta.id template) (templateMap st) || falsyKey (Meta.id template)
  then
    if bool_decide (Meta.name template ∈ seenNames st)
    then Some (nameIndex (Meta.name template) index)
    else Meta.name template
  else Meta.id template.

Definition step (st : State) (index : nat) (template : Meta.Entry) : State :=
  let k := uniqueKey st index template in
  {| templateMap :=
       set k {| stored_id := k; stored_from := template |} (templateMap st);
     seenNames := {[Meta.name template]} ∪ seenNames st |}.

(** The loop; [None] when the callback throws. *)
Fixpoint forEach_from (index : nat) (templates : list Item) (st : State)
  : option State :=
  match templates with
  | [] => Some st
  | Nullish :: _ => None
  | Value template :: rest =>
      forEach_from (S index) rest (step st index template)
  end.

(** [uniqueTemplates]; [None] when it throws. *)
Definition uniqueTemplates (templates : list Item) : option (list Stored) :=
  match templates with
  | [] => Some []
  | _ => (λ st, (templateMap st).*2) <$> forEach_from 0 templates init
  end.

(** A typed record as an element of the array. *)
Definition ofTemplate (t : Template) : Item :=
  Value {| Meta.id := Some (id t); Meta.name := Some (name t);
           Meta.rest := description t |}.
End Raw.

(** ** First occurrences

    The entries a pass over a list of entries keeps when it keeps an entry
    exactly if its id was not seen before ([seen] holds the ids seen so
    far). *)
Fixpoint firstOccurrences (seen : gset string) (l : list Meta.Entry)
  : list Meta.Entry :=
  match l with
  | [] => []
  | e :: l' =>
      if bool_decide (Meta.idOf e ∈ seen) then firstOccurrences seen l'
      else e :: firstOccurrences ({[Meta.idOf e]} ∪ seen) l'
  end.

(** ** Orderings and inputs used in the statements below *)

(** The ordering "name, then description, then tags" of the key weights. *)
Definition weights_ordered (o : FuseOptions) : Prop :=
  ∃ wn wd wt,
    weight_of "name" o = Some wn ∧ weight_of "description" o = Some wd
    ∧ weight_of "tags" o = Some wt ∧ (wd < wn)%Q ∧ (wt < wd)%Q.

(** Two records with the raw id ["ghost"]; the name of the second is
    the id itself. *)
Definition ghost0 : Template := mkT "ghost" "Ghost" ["cms"; "blog"].
Definition ghost1 : Template := mkT "ghost" "ghost" ["cms"].

(** Three records with the raw id ["a"]; the name of the third is the key
    synthesized for the second. *)
Definition dupA0 : Template := mkT "a" "n" ["x"].
Definition dupA1 : Template := mkT "a" "n" ["y"].
Definition dupA2 : Template := mkT "a" "n-1" ["z"].

(** A record with neither an id nor a name. *)
Definition anonymous : Template := mkT "" "" [].

(** A store before anything was published. *)
Definition emptyStore : Store.t :=
  {| Store.templates := []; Store.filteredTemplates := [];
     Store.templatesCount := 0; Store.searchQuery := "";
     Store.selectedTags := [] |}.

(** A comparison of strings by code units, standing for [localeCompare] in
    the examples. *)
Definition byteCompare (a b : string) : Z :=
  match String.compare a b with
  | Lt => (-1)%Z
  | Eq => 0%Z
  | Gt => 1%Z
  end.

Definition joinIds (l : list Meta.Entry) : string :=
  String.concat "," (Meta.idOf <$> l).

Definition entry (i n : string) : Meta.Entry :=
  {| Meta.id := Some i; Meta.name := Some n; Meta.rest := "" |}.

(** A parsed catalog: two entries with the id ["n8n"], a [null], an entry
    without id and an entry whose id sorts first. *)
Definition sampleData : list Meta.Item :=
  [ Meta.Obj (entry "n8n" "n8n");
    Meta.NotObject;
    Meta.Obj (entry "Ghost" "Ghost");
    Meta.Obj (entry "n8n" "n8n again");
    Meta.Obj {| Meta.id := None; Meta.name := Some "anon"; Meta.rest := "" |} ].

Definition sampleWorld : Meta.World :=
  {| Meta.files := {[ "meta.json" := "[raw]" ]}; Meta.writes := [] |}.

(** ** The template grid: loading the catalog, the file dialog, the cards

    A promise is modelled by what it settles to. A rejection reason or a
    thrown value is an [Error] object with its message, or something
    else. *)

Module Grid.
Inductive Thrown :=
| ErrorObject (message : string)
| OtherValue.

Inductive Settled (A : Type) :=
| Fulfilled (a : A)
| Rejected (reason : Thrown).
Arguments Fulfilled {A} a.
Arguments Rejected {A} reason.

(** A response: its [ok] flag and what reading its body ([json()] or
    [text()]) settles to. *)
Record Response (A : Type) := { ok : bool; body : Settled A }.
Arguments ok {A} r.
Arguments body {A} r.

Record TemplateFiles := {
  dockerCompose : option string;
  config : option string
}.

(** The [useState] cells of the component. *)
Record State := {
  loading : bool;
  error : option string;
  selectedTemplate : option Template;
  templateFiles : option TemplateFiles;
  modalLoading : bool
}.


Definition setLoading (b : bool) (c : State) : State :=
  {| loading := b; error := error c;
     selectedTemplate := selectedTemplate c;
     templateFiles := templateFiles c; modalLoading := modalLoading c |}.

Definition setError (e : option string) (c : State) : State :=
  {| loading := loading c; error := e;
     selectedTemplate := selectedTemplate c;
     templateFiles := templateFiles c; modalLoading := modalLoading c |}.


Definition setTemplateFiles (f : option TemplateFiles) (c : State) : State :=
  {| loading := loading c; error := error c;
     selectedTemplate := selectedTemplate c;
     templateFiles := f; modalLoading := modalLoading c |}.

Definition setModalLoading (b : bool) (c : State) : State :=
  {| loading := loading c; error := error c;
     selectedTemplate := selectedTemplate c;
     templateFiles := templateFiles c; modalLoading := b |}.

(** Modelled from the spec: the store's [setTemplates] (the store module
    is not among the sources) replaces the catalog held by the store. *)
Definition setTemplates (x : list Template) (s : Store.t) : Store.t :=
  {| Store.templates := x;
     Store.filteredTemplates := Store.filteredTemplates s;
     Store.templatesCount := Store.templatesCount s;
     Store.searchQuery := Store.searchQuery s;
     Store.selectedTags := Store.selectedTags s |}.

(** [err instanceof Error ? err.message : "An error occurred"]. *)
Definition errorMessage (err : Thrown) : string :=
  match err with
  | ErrorObject m => m
  | OtherValue => "An error occurred"
  end.

(** [fetchTemplates], given what [fetch("/meta.json")] settles to; the
    body of the response is the catalog as an array of records. *)
Definition fetchTemplates (fetched : Settled (Response (list Template)))
    (c : State) (s : Store.t) : State * Store.t :=
  let tried : Settled (list Template) :=
    match fetched with
    | Rejected reason => Rejected reason
    | Fulfilled response =>
        if negb (ok response)
        then Rejected (ErrorObject "Failed to fetch templates")
        else body response
    end in
  match tried with
  | Fulfilled data => (setLoading false c, setTemplates data s)
  | Rejected err =>
      (setLoading false (setError (Some (errorMessage err)) c), s)
  end.

(** What the component returns: the skeleton while loading, the error
    page when [error] is truthy, the grid otherwise. *)
Inductive View :=
| Skeleton
| ErrorPage (message : string)
| Cards.

Definition view (c : State) : View :=
  if loading c then Skeleton
  else match error c with
       | Some m => if truthy m then ErrorPage m else Cards
       | None => Cards
       end.

Definition composeUrl (templateId : string) : string :=
  "/blueprints/" +:+ templateId +:+ "/docker-compose.yml".

Definition configUrl (templateId : string) : string :=
  "/blueprints/" +:+ templateId +:+ "/template.toml".

(** [res.ok ? await res.text() : null]. *)
Definition textIfOk (res : Response string) : Settled (option string) :=
  if ok res then
    match body res with
    | Fulfilled t => Fulfilled (Some t)
    | Rejected reason => Rejected reason
    end
  else Fulfilled None.

Section Files.
(** What [fetch] of a URL settles to. *)
Variable fetch : string → Settled (Response string).

(** The body of the [try] block: [Promise.all] rejects when one of the two
    requests does; the two texts are then read in turn. *)
Definition tryFiles (templateId : string) : Settled TemplateFiles :=
  match fetch (composeUrl templateId), fetch (configUrl templateId) with
  | Fulfilled dockerComposeRes, Fulfilled configRes =>
      match textIfOk dockerComposeRes with
      | Fulfilled dockerCompose =>
          match textIfOk configRes with
          | Fulfilled config =>
              Fulfilled {| dockerCompose := dockerCompose; config := config |}
          | Rejected reason => Rejected reason
          end
      | Rejected reason => Rejected reason
      end
  | Rejected reason, _ => Rejected reason
  | Fulfilled _, Rejected reason => Rejected reason
  end.

Definition fetchTemplateFiles (templateId : string) (c : State) : State :=
  let c1 := setModalLoading true c in
  let c2 :=
    match tryFiles templateId with
    | Fulfilled files => setTemplateFiles (Some files) c1
    | Rejected _ =>
        setTemplateFiles
          (Some {| dockerCompose := None; config := None |}) c1
    end in
  setModalLoading false c2.

End Files.

(** The tag chips of a card: [template.tags.slice(0, 3)], their keys, and
    the number shown in the "+N more" chip when there is one. *)
Definition visibleTags (template : Template) : list string :=
  take 3 (tags template).

Definition tagKeys (template : Template) : list string :=
  imap (λ tagIndex tag,
          id template +:+ "-" +:+ tag +:+ "-" +:+ pretty tagIndex)
       (visibleTags template).

Definition moreChip (template : Template) : option nat :=
  if bool_decide (3 < length (tags template))
  then Some (length (tags template) - 3)
  else None.
End Grid.

(** Whether a string ends with the given character. *)
Fixpoint endsWith (c : ascii) (s : string) : bool :=
  match s with
  | EmptyString => false
  | String a s' =>
      match s' with
      | EmptyString => bool_decide (a = c)
      | String _ _ => endsWith c s'
      end
  end.

(** * Properties *)

(** ** The [Map] model *)

Section JsMapFacts.
Context {V : Type}.

Lemma map_has_true (k : string) (m : list (string * V)) :
  map_has k m = true ↔ k ∈ m.*1.
Proof. unfold map_has. by rewrite bool_decide_eq_true. Qed.

Lemma map_has_false (k : string) (m : list (string * V)) :
  map_has k m = false ↔ k ∉ m.*1.
Proof. unfold map_has. by rewrite bool_decide_eq_false. Qed.

(** A [set] keeps the key order: a present key stays where it is, an
    absent key goes to the end. *)
Lemma map_set_keys (k : string) (v : V) (m : list (string * V)) :
  (map_set k v m).*1 = if map_has k m then m.*1 else m.*1 ++ [k].
Proof.
  induction m as [|[k' v'] m IH]; [done|].
  cbn [map_set]. destruct (decide (k' = k)) as [->|Hne].
  - assert (map_has k ((k, v') :: m) = true) as ->; [|done].
    apply map_has_true. rewrite fmap_cons. left.
  - rewrite !fmap_cons, IH. cbn [fst].
    destruct (map_has k m) eqn:Hm.
    + assert (map_has k ((k', v') :: m) = true) as ->; [|done].
      apply map_has_true. rewrite fmap_cons. right. by apply map_has_true.
    + assert (map_has k ((k', v') :: m) = false) as ->; [|done].
      apply map_has_false. rewrite fmap_cons. apply not_elem_of_cons.
      split; [done|]. by apply map_has_false.
Qed.

Lemma map_set_NoDup (k : string) (v : V) (m : list (string * V)) :
  NoDup m.*1 → NoDup (map_set k v m).*1.
Proof.
  intros Hnd. rewrite map_set_keys.
  destruct (map_has k m) eqn:Hm; [done|].
  apply NoDup_app. split_and!; [done| |apply NoDup_singleton].
  intros x Hx Hx'. apply list_elem_of_singleton in Hx' as ->.
  by apply map_has_false in Hm.
Qed.

(** After [set k v] the map holds [v] under [k]. *)
Lemma map_set_stored (k : string) (v : V) (m : list (string * V)) :
  (k, v) ∈ map_set k v m.
Proof.
  induction m as [|[k' v'] m IH]; simpl; [left|].
  destruct (decide (k' = k)); [left | by right].
Qed.

(** Every binding after a [set] is the new one or an old one. *)
Lemma map_set_elem (k : string) (v : V) (m : list (string * V))
    (k1 : string) (v1 : V) :
  (k1, v1) ∈ map_set k v m → (k1, v1) = (k, v) ∨ (k1, v1) ∈ m.
Proof.
  induction m as [|[k' v'] m IH]; simpl.
  - intros ->%list_elem_of_singleton. by left.
  - destruct (decide (k' = k)).
    + intros [-> | ?]%elem_of_cons; [by left | right; by right].
    + intros [-> | H]%elem_of_cons; [right; left|].
      destruct (IH H) as [?|?]; [by left | right; by right].
Qed.
End JsMapFacts.

(** ** Catalog normalizer *)

Lemma norm_step_inv input st index template :
  template ∈ input →
  norm_inv input st → norm_inv input (norm_step st index template).
Proof.
  intros Hin [Hnd Hval]. split; simpl.
  - by apply map_set_NoDup.
  - intros k v [[= -> ->]|Hold]%map_set_elem.
    + split; [done|]. eauto.
    + by apply Hval.
Qed.

Lemma forEach_from_inv input templates index st :
  templates ⊆ input →
  norm_inv input st → norm_inv input (forEach_from index templates st).
Proof.
  revert index st.
  induction templates as [|t ts IH]; intros index st Hsub Hinv; simpl; [done|].
  apply IH.
  - intros x Hx. apply Hsub. by right.
  - apply norm_step_inv; [|done]. apply Hsub. left.
Qed.

Lemma norm_init_inv input : norm_inv input norm_init.
Proof.
  split; simpl; [apply NoDup_nil_2|].
  intros k v H. by apply elem_of_nil in H.
Qed.

Lemma values_ids_keys (m : list (string * Template)) :
  (∀ k v, (k, v) ∈ m → id v = k) → id <$> map_values m = m.*1.
Proof.
  unfold map_values.
  induction m as [|[k v] m IH]; intros H; simpl; [done|].
  rewrite (H k v); [|left]. f_equal. apply IH.
  intros k' v' Hin. apply H. by right.
Qed.

(** The identifiers of the normalized catalog are pairwise distinct. *)
Lemma uniqueTemplates_ids_NoDup (templates : list Template) :
  NoDup (id <$> uniqueTemplates templates).
Proof.
  unfold uniqueTemplates. destruct templates as [|t ts]; [apply NoDup_nil_2|].
  destruct (forEach_from_inv (t :: ts) (t :: ts) 0 norm_init) as [Hnd Hval];
    [done | apply norm_init_inv |].
  rewrite values_ids_keys; [done|].
  intros k v Hin. by destruct (Hval k v Hin).
Qed.

(** Every record of the normalized catalog is an input record in which
    only [id] may have been replaced. *)
Lemma uniqueTemplates_from_input (templates : list Template) (v : Template) :
  v ∈ uniqueTemplates templates →
  ∃ t, t ∈ templates ∧ v = with_id t (id v).
Proof.
  unfold uniqueTemplates. destruct templates as [|t ts].
  { intros H. by apply elem_of_nil in H. }
  destruct (forEach_from_inv (t :: ts) (t :: ts) 0 norm_init) as [Hnd Hval];
    [done | apply norm_init_inv |].
  unfold map_values. intros Hin.
  apply list_elem_of_fmap in Hin as [[k v'] [-> Hin]]. simpl.
  destruct (Hval k v' Hin) as [Hid (t' & Ht' & ->)].
  exists t'. split; [done|]. simpl. done.
Qed.

(** The key of a record whose raw [id] is present in the map or empty is
    its name, or its name, a dash and its position when the name was seen. *)
Lemma uniqueKey_fallback (st : NormState) (index : nat) (template : Template) :
  id template ∈ (templateMap st).*1 ∨ id template = "" →
  uniqueKey st index template =
    if bool_decide (name template ∈ seenNames st)
    then name template +:+ "-" +:+ pretty index
    else name template.
Proof.
  intros H. unfold uniqueKey.
  assert (map_has (id template) (templateMap st) || falsy (id template) = true)
    as ->; [|done].
  apply orb_true_iff. destruct H as [H|H].
  - left. by apply map_has_true.
  - right. unfold falsy. by apply bool_decide_eq_true.
Qed.

(** A record whose raw [id] is non-empty and not yet a key keeps it. *)
Lemma uniqueKey_keeps_id (st : NormState) (index : nat) (template : Template) :
  id template ∉ (templateMap st).*1 → id template ≠ "" →
  uniqueKey st index template = id template.
Proof.
  intros Hm He. unfold uniqueKey.
  assert (map_has (id template) (templateMap st) || falsy (id template) = false)
    as ->; [|done].
  apply orb_false_iff. split.
  - by apply map_has_false.
  - unfold falsy. by apply bool_decide_eq_false.
Qed.

(** Every iteration stores its record, under the key chosen for it. *)
Lemma norm_step_stores (st : NormState) (index : nat) (template : Template) :
  let k := uniqueKey st index template in
  (k, with_id template k) ∈ templateMap (norm_step st index template).
Proof. simpl. apply map_set_stored. Qed.

(** The scenario of two records sharing the id ["ghost"], the second named
    ["Ghost Dup"]: both are kept, the second under its name. *)
Example uniqueTemplates_ghost_scenario :
  id <$> uniqueTemplates [mkT "ghost" "Ghost" ["cms"; "blog"];
                          mkT "ghost" "Ghost Dup" ["cms"]]
  = ["ghost"; "Ghost Dup"].
Proof. vm_compute. reflexivity. Qed.

(** C1 (fails on the code). The fallback key is not checked against the keys
    already in the map: with two records of raw id ["ghost"], the second
    named ["ghost"], the second is stored under the key ["ghost"] again and
    replaces the first. The normalized catalog has one record and no record
    named ["Ghost"]. *)
Theorem uniqueTemplates_fallback_overwrites :
  uniqueTemplates [ghost0; ghost1] = [ghost1]
  ∧ ∀ t, t ∈ uniqueTemplates [ghost0; ghost1] → name t ≠ name ghost0.
Proof.
  assert (uniqueTemplates [ghost0; ghost1] = [ghost1]) as ->
    by (vm_compute; reflexivity).
  split; [done|].
  intros t ->%list_elem_of_singleton. vm_compute. discriminate.
Qed.

(** C2 (fails on the code). With three records of raw id ["a"], named ["n"],
    ["n"] and ["n-1"], the second is re-keyed to ["n-1"] and the third, whose
    name was not seen yet, is stored under ["n-1"] too: the second record,
    whose raw id collided, is not in the normalized catalog under any
    identifier. The identifiers that are produced are pairwise distinct
    ([uniqueTemplates_ids_NoDup]). *)
Theorem uniqueTemplates_rekeyed_overwritten :
  uniqueTemplates [dupA0; dupA1; dupA2] = [dupA0; with_id dupA2 "n-1"]
  ∧ ∀ t, t ∈ uniqueTemplates [dupA0; dupA1; dupA2] → tags t ≠ tags dupA1.
Proof.
  assert (uniqueTemplates [dupA0; dupA1; dupA2] = [dupA0; with_id dupA2 "n-1"])
    as -> by (vm_compute; reflexivity).
  split; [done|].
  intros t [-> | ->%list_elem_of_singleton]%elem_of_cons;
    vm_compute; discriminate.
Qed.

(** ** Filter pipeline *)

Lemma hasAllTags_spec (selectedTags : list string) (template : Template) :
  hasAllTags selectedTags template
  ↔ ∀ tag, tag ∈ selectedTags → tag ∈ tags template.
Proof.
  unfold hasAllTags, every, includes.
  rewrite Is_true_true, forallb_forall. split.
  - intros H tag Hin. apply list_elem_of_In in Hin.
    specialize (H tag Hin). by apply bool_decide_eq_true in H.
  - intros H tag Hin. apply list_elem_of_In in Hin.
    by apply bool_decide_eq_true, H.
Qed.

Lemma tagStep_nonempty (selectedTags : list string) (filtered : list Template) :
  selectedTags ≠ [] →
  tagStep selectedTags filtered
  = filter (λ template, hasAllTags selectedTags template) filtered.
Proof.
  intros Hne. unfold tagStep. rewrite bool_decide_eq_true_2; [done|].
  destruct selectedTags; [done | simpl; lia].
Qed.

Lemma filteredTemplates_steps (fuse_search : Fuse → string → list FuseResult)
    (catalog : list Template) (q : string) (selectedTags : list string) :
  filteredTemplates fuse_search catalog q selectedTags
  = tagStep selectedTags (searchStep fuse_search catalog q).
Proof.
  destruct catalog; [|done].
  unfold filteredTemplates, searchStep, tagStep; simpl.
  destruct (truthy (trim q)); by case_bool_decide.
Qed.

(** C3. With a non-empty tag selection the result of the pipeline is the
    working set of step 1 (the search results, or the whole catalog when no
    text filter applies) restricted to the records whose tags include every
    selected tag: a record is in the result exactly when it is in the
    working set and has all selected tags, and the result lists them in the
    order of the working set. *)
Theorem filteredTemplates_tag_filter
    (fuse_search : Fuse → string → list FuseResult)
    (catalog : list Template) (q : string) (selectedTags : list string) :
  selectedTags ≠ [] →
  let working := searchStep fuse_search catalog q in
  let result := filteredTemplates fuse_search catalog q selectedTags in
  (∀ t, t ∈ result ↔ t ∈ working ∧ ∀ tag, tag ∈ selectedTags → tag ∈ tags t)
  ∧ result = filter (λ t, hasAllTags selectedTags t) working
  ∧ result `sublist_of` working.
Proof.
  intros Hne working result.
  assert (result = filter (λ t, hasAllTags selectedTags t) working) as Hres.
  { subst result working.
    by rewrite filteredTemplates_steps, tagStep_nonempty. }
  split_and!; [|done|].
  - intros t. rewrite Hres, list_elem_of_filter, hasAllTags_spec. tauto.
  - rewrite Hres. apply sublist_filter.
Qed.

Lemma filteredTemplates_tag_filter_witness :
  let search := λ (f : Fuse) (_ : string),
                  [{| item := ghost1; refIndex := 1 |};
                   {| item := ghost0; refIndex := 0 |}] in
  filteredTemplates search [ghost0; ghost1] "gho" ["cms"; "blog"] = [ghost0]
  ∧ filteredTemplates search [ghost0; ghost1] "gho" ["cms"] = [ghost1; ghost0].
Proof.
  intros search. split.
  - destruct (filteredTemplates_tag_filter search [ghost0; ghost1] "gho"
                ["cms"; "blog"]) as (_ & -> & _); [discriminate|].
    vm_compute. reflexivity.
  - destruct (filteredTemplates_tag_filter search [ghost0; ghost1] "gho"
                ["cms"]) as (_ & -> & _); [discriminate|].
    vm_compute. reflexivity.
Defined.

(** Five records and the selection database + cache: only the records
    tagged with both remain, in catalog order. *)
Example filteredTemplates_two_tags :
  id <$> filteredTemplates (λ _ _, [])
           [mkT "redis" "Redis" ["database"; "cache"];
            mkT "postgres" "Postgres" ["database"];
            mkT "ghost" "Ghost" ["cms"];
            mkT "dragonfly" "Dragonfly" ["cache"; "database"];
            mkT "varnish" "Varnish" ["cache"]]
           "" ["database"; "cache"]
  = ["redis"; "dragonfly"].
Proof. vm_compute. reflexivity. Qed.

(** C4. With the empty debounced query and no selected tag the pipeline
    returns the catalog it was given, in the same order. *)
Theorem filteredTemplates_identity
    (fuse_search : Fuse → string → list FuseResult)
    (catalog : list Template) :
  filteredTemplates fuse_search catalog "" [] = catalog.
Proof.
  rewrite filteredTemplates_steps. unfold tagStep, searchStep. done.
Qed.

(** ** Publishing effect *)

Lemma republish_lookup (fuse_search : Fuse → string → list FuseResult)
    (catalog : list Template) (mutations : list Sink.Mutation)
    (i : Sink.Inputs) (s : Store.t) (k : nat) (snap : Sink.Snapshot) :
  Sink.republish fuse_search catalog mutations i s !! k = Some snap →
  Sink.items snap
  = Sink.result fuse_search catalog
      (foldl Sink.mutate i (take (S k) mutations))
  ∧ Sink.count snap = length (Sink.items snap).
Proof.
  revert i s k.
  induction mutations as [|m rest IH]; intros i s k; [done|].
  destruct k as [|k]; simpl.
  - intros [= <-]. by destruct rest.
  - apply IH.
Qed.

Lemma republish_length (fuse_search : Fuse → string → list FuseResult)
    (catalog : list Template) (mutations : list Sink.Mutation)
    (i : Sink.Inputs) (s : Store.t) :
  length (Sink.republish fuse_search catalog mutations i s)
  = length mutations.
Proof.
  revert i s. induction mutations as [|m rest IH]; intros i s; [done|].
  simpl. by rewrite IH.
Qed.

(** C6. Through any sequence of mutations of the query text and of the
    tag selection, one snapshot is published per mutation, and in every
    published snapshot the count is the length of the items, which are the
    result of the filter pipeline for the inputs after that mutation: the
    count and the list written by one run of the effect are the length of
    a list and that list. *)
Theorem snapshot_count_consistent
    (fuse_search : Fuse → string → list FuseResult)
    (templates : list Template) (mutations : list Sink.Mutation)
    (i : Sink.Inputs) (s : Store.t) (k : nat) (snap : Sink.Snapshot) :
  let catalog := uniqueTemplates templates in
  Sink.republish fuse_search catalog mutations i s !! k = Some snap →
  Sink.count snap = length (Sink.items snap)
  ∧ Sink.items snap
    = Sink.result fuse_search catalog
        (foldl Sink.mutate i (take (S k) mutations))
  ∧ length (Sink.republish fuse_search catalog mutations i s)
    = length mutations
  ∧ Store.templatesCount (publishEffect (Sink.items snap) s)
    = length (Store.filteredTemplates (publishEffect (Sink.items snap) s)).
Proof.
  intros catalog Hk.
  destruct (republish_lookup _ _ _ _ _ _ _ Hk) as [Hitems Hcount].
  split_and!; [done | done | apply republish_length | done].
Qed.

Lemma snapshot_count_consistent_witness :
  ∃ snap,
    Sink.republish (λ _ _, []) (uniqueTemplates [ghost0; mkT "n8n" "n8n" []])
      [Sink.SetTags ["cms"]; Sink.SetQuery "zzzzqqqq"; Sink.SetTags []]
      {| Sink.debouncedSearchQuery := ""; Sink.selectedTags := [] |}
      emptyStore !! 0 = Some snap
    ∧ Sink.count snap = length (Sink.items snap)
    ∧ Sink.count snap = 1.
Proof.
  eexists. split; [vm_compute; reflexivity|].
  destruct (snapshot_count_consistent (λ _ _, [])
              [ghost0; mkT "n8n" "n8n" []]
              [Sink.SetTags ["cms"]; Sink.SetQuery "zzzzqqqq";
               Sink.SetTags []]
              {| Sink.debouncedSearchQuery := ""; Sink.selectedTags := [] |}
              emptyStore 0 _ eq_refl) as (H & _).
  split; [exact H | reflexivity].
Defined.

(** ** Index configuration *)

(** C8 (as stated, fails). In the options of the [useFuseSearch] hook the
    description weighs less than the tags. *)
Lemma hookOptions_not_ordered : ¬ weights_ordered hookOptions.
Proof.
  intros (wn & wd & wt & _ & Hd & Ht & _ & Hlt).
  vm_compute in Hd, Ht. injection Hd as <-. injection Ht as <-.
  vm_compute in Hlt. discriminate.
Qed.

(** C8 (amended). In the options of the index the template grid builds, the
    name weighs more than the description and the description more than the
    tags (0.7, 0.2, 0.1). In the options of the [useFuseSearch] hook the
    name weighs more than the tags, the tags more than the description and
    the description more than the id (2, 1.5, 1, 0.5). *)
Theorem index_weights :
  weights_ordered gridOptions
  ∧ ∃ wn wt wd wi,
      weight_of "name" hookOptions = Some wn
      ∧ weight_of "tags" hookOptions = Some wt
      ∧ weight_of "description" hookOptions = Some wd
      ∧ weight_of "id" hookOptions = Some wi
      ∧ (wt < wn)%Q ∧ (wd < wt)%Q ∧ (wi < wd)%Q.
Proof.
  split.
  - exists (7 # 10)%Q, (2 # 10)%Q, (1 # 10)%Q.
    split_and!; try (vm_compute; reflexivity).
  - exists (2 # 1)%Q, (15 # 10)%Q, (1 # 1)%Q, (5 # 10)%Q.
    split_and!; try (vm_compute; reflexivity).
Qed.

(** ** The [useFuseSearch] hook *)

Lemma hook_blank (fuse_search : Fuse → string → list FuseResult)
    (templates : list Template) (query : string) :
  FuseHook.fuse templates = None ∨ trim query = "" →
  FuseHook.search fuse_search templates query = templates
  ∧ FuseHook.searchWithDetails fuse_search templates query = [].
Proof.
  unfold FuseHook.search, FuseHook.searchWithDetails.
  intros [-> | Hq]; [done|].
  rewrite Hq. by destruct (FuseHook.fuse templates).
Qed.

(** C10. When the hook has no index or the query is empty or white space
    only, [search] returns the template list it was given and
    [searchWithDetails] returns the empty list; for a non-empty template
    list the two results therefore differ in length. *)
Theorem hook_blank_query_disagreement
    (fuse_search : Fuse → string → list FuseResult)
    (templates : list Template) (query : string) :
  FuseHook.fuse templates = None ∨ trim query = "" →
  FuseHook.search fuse_search templates query = templates
  ∧ FuseHook.searchWithDetails fuse_search templates query = []
  ∧ (templates ≠ [] →
     length (FuseHook.search fuse_search templates query)
     ≠ length (FuseHook.searchWithDetails fuse_search templates query)).
Proof.
  intros H. destruct (hook_blank fuse_search templates query H) as [-> ->].
  split_and!; [done..|].
  intros Hne. by destruct templates.
Qed.

Lemma hook_blank_query_disagreement_witness :
  let search := λ (f : Fuse) (_ : string),
                  [{| item := ghost0; refIndex := 0 |}] in
  FuseHook.search search [ghost0; ghost1] "  " = [ghost0; ghost1]
  ∧ FuseHook.searchWithDetails search [ghost0; ghost1] "  " = [].
Proof.
  intros search.
  destruct (hook_blank_query_disagreement search [ghost0; ghost1] "  ")
    as (H1 & H2 & _); [right; vm_compute; reflexivity|].
  split; [exact H1 | exact H2].
Defined.

(** ** Maintenance script: the deduplication loop *)

Lemma valid_Some (item : Meta.Item) (e : Meta.Entry) :
  Meta.valid item = Some e →
  item = Meta.Obj e ∧ Meta.id e = Some (Meta.idOf e) ∧ Meta.idOf e ≠ "".
Proof.
  destruct item as [|e']; simpl; [done|].
  unfold Meta.idOf. destruct (Meta.id e') as [i|] eqn:Hid; [|done].
  unfold falsy. case_bool_decide; [done|].
  intros [= <-]. rewrite Hid. done.
Qed.

(** An item that is not an object, or has no non-empty id, only adds a
    warning that names its position. *)
Lemma loop_step_skip (st : Meta.Loop) (index : nat) (item : Meta.Item) :
  Meta.valid item = None →
  ∃ w, Meta.loop_step st index item = Meta.warn w st
       ∧ (w = Meta.SkipInvalid index ∨ ∃ n, w = Meta.SkipNoId index n).
Proof.
  destruct item as [|e]; simpl.
  - intros _. eexists. split; [done | by left].
  - destruct (Meta.id e) as [i|]; [destruct (falsy i); [|done]|];
      intros _; eexists; (split; [done | right; by eexists]).
Qed.

Lemma loop_step_valid (st : Meta.Loop) (index : nat) (item : Meta.Item)
    (e : Meta.Entry) :
  Meta.valid item = Some e →
  let st' := Meta.loop_step st index item in
  if bool_decide (Meta.idOf e ∈ Meta.seenIds st)
  then Meta.seenIds st' = Meta.seenIds st ∧ Meta.unique st' = Meta.unique st
  else Meta.seenIds st' = {[Meta.idOf e]} ∪ Meta.seenIds st
       ∧ Meta.unique st' = Meta.unique st ++ [e].
Proof.
  intros Hv. pose proof (valid_Some _ _ Hv) as (-> & Hid & Hne).
  simpl. rewrite Hid.
  assert (falsy (Meta.idOf e) = false) as ->
    by (unfold falsy; by apply bool_decide_eq_false).
  by case_bool_decide.
Qed.

(** The loop keeps the first occurrences among the valid items. *)
Lemma forEach_from_unique (data : list Meta.Item) (index : nat)
    (st : Meta.Loop) :
  Meta.unique (Meta.forEach_from index data st)
  = Meta.unique st ++ firstOccurrences (Meta.seenIds st) (omap Meta.valid data).
Proof.
  revert index st.
  induction data as [|item data IH]; intros index st; simpl.
  { by rewrite app_nil_r. }
  rewrite IH. destruct (Meta.valid item) as [e|] eqn:Hv.
  - pose proof (loop_step_valid st index item e Hv) as Hstep. simpl in *.
    case_bool_decide; destruct Hstep as [-> ->]; [done|].
    by rewrite <- app_assoc.
  - destruct (loop_step_skip st index item Hv) as (w & -> & _). done.
Qed.

Lemma firstOccurrences_sublist (seen : gset string) (l : list Meta.Entry) :
  firstOccurrences seen l `sublist_of` l.
Proof.
  revert seen. induction l as [|e l IH]; intros seen; simpl; [done|].
  case_bool_decide; [by apply sublist_cons | by apply sublist_skip].
Qed.

Lemma firstOccurrences_unseen (seen : gset string) (l : list Meta.Entry)
    (e : Meta.Entry) :
  e ∈ firstOccurrences seen l → Meta.idOf e ∉ seen.
Proof.
  revert seen. induction l as [|e' l IH]; intros seen; simpl.
  { intros H. by apply elem_of_nil in H. }
  case_bool_decide as Hseen; [apply IH|].
  intros [-> | Hin]%elem_of_cons; [done|].
  apply IH in Hin. set_solver.
Qed.

Lemma firstOccurrences_NoDup (seen : gset string) (l : list Meta.Entry) :
  NoDup (Meta.idOf <$> firstOccurrences seen l).
Proof.
  revert seen. induction l as [|e l IH]; intros seen; simpl.
  { apply NoDup_nil_2. }
  case_bool_decide; [apply IH|].
  rewrite fmap_cons. apply NoDup_cons. split; [|apply IH].
  intros (e' & Heq & Hin)%list_elem_of_fmap.
  apply firstOccurrences_unseen in Hin. set_solver.
Qed.

Lemma firstOccurrences_first (seen : gset string)
    (l1 l2 : list Meta.Entry) (e : Meta.Entry) :
  Meta.idOf e ∉ seen →
  (∀ e', e' ∈ l1 → Meta.idOf e' ≠ Meta.idOf e) →
  e ∈ firstOccurrences seen (l1 ++ e :: l2).
Proof.
  revert seen. induction l1 as [|e1 l1 IH]; intros seen Hseen Hl1; simpl.
  - rewrite bool_decide_eq_false_2; [left | done].
  - assert (Meta.idOf e1 ≠ Meta.idOf e) as Hne by (apply Hl1; left).
    assert (∀ e', e' ∈ l1 → Meta.idOf e' ≠ Meta.idOf e) as Hrest
      by (intros e' ?; apply Hl1; by right).
    case_bool_decide; [by apply IH|].
    right. apply IH; [|done].
    rewrite elem_of_union, elem_of_singleton. intros [?|?]; congruence.
Qed.

(** ** Maintenance script: the sort *)

Section SortFacts.
Variable localeCompare : string → string → Z.
Hypothesis localeCompare_total :
  ∀ a b, (localeCompare a b ≤ 0 ∨ localeCompare b a ≤ 0)%Z.

Local Abbreviation le := (Meta.idLe localeCompare).

Lemma insert_Permutation (a : Meta.Entry) (l : list Meta.Entry) :
  Meta.insert localeCompare a l ≡ₚ a :: l.
Proof.
  induction l as [|b l IH]; simpl; [done|].
  case_bool_decide; [done|]. rewrite IH. apply Permutation_swap.
Qed.

Lemma insert_HdRel (a b : Meta.Entry) (l : list Meta.Entry) :
  le b a → HdRel le b l → HdRel le b (Meta.insert localeCompare a l).
Proof.
  intros Hba Hhd. destruct l as [|c l]; simpl; [by constructor|].
  case_bool_decide; constructor; [done|].
  by inversion Hhd.
Qed.

Lemma insert_Sorted (a : Meta.Entry) (l : list Meta.Entry) :
  Sorted le l → Sorted le (Meta.insert localeCompare a l).
Proof.
  induction 1 as [|b l Hs IH Hhd]; simpl.
  { by repeat constructor. }
  case_bool_decide as Hab.
  - constructor; [by constructor | by constructor].
  - constructor; [done|]. apply insert_HdRel; [|done].
    unfold Meta.idLe, Meta.compareIds in *.
    destruct (localeCompare_total (toLowerCase (Meta.idOf a))
                (toLowerCase (Meta.idOf b))); [done|done].
Qed.

Lemma sort_Sorted (l : list Meta.Entry) :
  Sorted le (Meta.sort localeCompare l).
Proof.
  induction l as [|a l IH]; simpl; [constructor|]. by apply insert_Sorted.
Qed.

Lemma sort_Permutation (l : list Meta.Entry) :
  Meta.sort localeCompare l ≡ₚ l.
Proof.
  induction l as [|a l IH]; simpl; [done|].
  by rewrite insert_Permutation, IH.
Qed.
End SortFacts.

(** ** Maintenance script: the run *)

Lemma append_cons (c : ascii) (a b : string) :
  String c a +:+ b = String c (a +:+ b).
Proof. reflexivity. Qed.

Lemma append_neq_self (a b : string) : b ≠ "" → a +:+ b ≠ a.
Proof.
  intros Hb. induction a as [|c a IH].
  - done.
  - rewrite append_cons. intros [= H]. by apply IH.
Qed.

Lemma backupPathOf_fresh (filePath : string) (now : N) :
  Meta.backupPathOf filePath now ≠ filePath.
Proof. unfold Meta.backupPathOf. by apply append_neq_self. Qed.

Lemma byteCompare_total (a b : string) :
  (byteCompare a b ≤ 0 ∨ byteCompare b a ≤ 0)%Z.
Proof.
  unfold byteCompare. rewrite (String.compare_antisym a b).
  destruct (String.compare b a); simpl; lia.
Qed.

(** C9. Given a file that holds an array, the script keeps the first
    occurrence of each id (the kept entries are valid entries of the array
    in array order, no two have the same id, and an entry no earlier object
    shares its id with is kept), writes them sorted by lower-cased id
    under [localeCompare], and before that writes the prior content of the
    file to [<file>.backup.<timestamp>]. *)
Theorem dedupeAndSortMeta_spec
    (JSON_parse : string → option Meta.Json)
    (JSON_stringify : list Meta.Entry → string)
    (localeCompare : string → string → Z)
    (filePath : string) (now : N) (w : Meta.World)
    (fileContent : string) (data : list Meta.Item) :
  Meta.files w !! filePath = Some fileContent →
  JSON_parse fileContent = Some (Meta.JArray data) →
  (∀ a b, (localeCompare a b ≤ 0 ∨ localeCompare b a ≤ 0)%Z) →
  ∃ stats warned w' kept sorted,
    Meta.dedupeAndSortMeta JSON_parse JSON_stringify localeCompare
      filePath now w = Meta.Return stats warned w'
    ∧ kept `sublist_of` omap Meta.valid data
    ∧ NoDup (Meta.idOf <$> kept)
    ∧ (∀ before e after,
         data = before ++ Meta.Obj e :: after →
         Meta.valid (Meta.Obj e) = Some e →
         (∀ e', Meta.Obj e' ∈ before → Meta.id e' ≠ Meta.id e) →
         e ∈ kept)
    ∧ sorted ≡ₚ kept
    ∧ Sorted (Meta.idLe localeCompare) sorted
    ∧ Meta.writes w'
      = Meta.writes w ++
        [(filePath +:+ ".backup." +:+ pretty now, fileContent);
         (filePath, JSON_stringify sorted)]
    ∧ Meta.files w' !! (filePath +:+ ".backup." +:+ pretty now)
      = Some fileContent
    ∧ Meta.files w' !! filePath = Some (JSON_stringify sorted)
    ∧ Meta.final stats = length kept.
Proof.
  intros Hfile Hparse Htotal.
  unfold Meta.dedupeAndSortMeta. rewrite Hfile, Hparse.
  set (st := Meta.forEach_from 0 data Meta.loop_init).
  assert (Meta.unique st = firstOccurrences ∅ (omap Meta.valid data)) as Hkept.
  { subst st. by rewrite forEach_from_unique. }
  eexists _, _, _, (Meta.unique st), (Meta.sort localeCompare (Meta.unique st)).
  split_and!; [done|..].
  - rewrite Hkept. apply firstOccurrences_sublist.
  - rewrite Hkept. apply firstOccurrences_NoDup.
  - intros before e after -> Hv Hfirst. rewrite Hkept, omap_app.
    destruct (valid_Some _ _ Hv) as (_ & Hid & _).
    assert (omap Meta.valid (Meta.Obj e :: after)
            = e :: omap Meta.valid after) as ->.
    { simpl in Hv |- *. by rewrite Hv. }
    apply firstOccurrences_first; [apply not_elem_of_empty|].
    intros e' (item & Hitem & Hv')%list_elem_of_omap.
    destruct (valid_Some _ _ Hv') as (-> & Hid' & _).
    specialize (Hfirst e' Hitem). congruence.
  - by apply sort_Permutation.
  - by apply sort_Sorted.
  - simpl. by rewrite <- app_assoc.
  - simpl. rewrite lookup_insert_ne; [apply lookup_insert_eq|].
    intros Heq. by apply (backupPathOf_fresh filePath now).
  - simpl. apply lookup_insert_eq.
  - simpl. apply Permutation_length, sort_Permutation.
Qed.

Lemma dedupeAndSortMeta_spec_witness :
  ∃ stats warned w',
    Meta.dedupeAndSortMeta (λ _, Some (Meta.JArray sampleData)) joinIds
      byteCompare "meta.json" 1755066142618 sampleWorld
    = Meta.Return stats warned w'
    ∧ Meta.files w' !! "meta.json.backup.1755066142618" = Some "[raw]"
    ∧ Meta.files w' !! "meta.json" = Some "Ghost,n8n"
    ∧ Meta.final stats = 2.
Proof.
  destruct (dedupeAndSortMeta_spec (λ _, Some (Meta.JArray sampleData)) joinIds
              byteCompare "meta.json" 1755066142618 sampleWorld "[raw]"
              sampleData)
    as (stats & warned & w' & kept & sorted & Hrun & _ & _ & _ & _ & _ & _
        & Hbackup & _ & _);
    [reflexivity | reflexivity | apply byteCompare_total |].
  exists stats, warned, w'. split; [exact Hrun|].
  split; [exact Hbackup|].
  vm_compute in Hrun. injection Hrun as <- _ <-.
  split; vm_compute; reflexivity.
Defined.

(** ** Records that are not well formed *)

(** C7 (as stated, fails). The normalizer has no check on the record: a
    record with neither an id nor a name is stored, under the empty key, and
    is part of the normalized catalog. *)
Lemma uniqueTemplates_keeps_anonymous :
  id anonymous = "" ∧ name anonymous = ""
  ∧ anonymous ∈ uniqueTemplates [ghost0; anonymous].
Proof.
  split_and!; [done..|].
  assert (uniqueTemplates [ghost0; anonymous] = [ghost0; anonymous]) as ->
    by (vm_compute; reflexivity).
  right. left.
Qed.

(** *** The normalizer on an untyped array *)

Lemma raw_set_stored (k : option string) (v : Raw.Stored)
    (m : list (option string * Raw.Stored)) :
  (k, v) ∈ Raw.set k v m.
Proof.
  induction m as [|[k' v'] m IH]; simpl; [left|].
  destruct (decide (k' = k)); [left | by right].
Qed.

Lemma raw_set_other (k k1 : option string) (v v1 : Raw.Stored)
    (m : list (option string * Raw.Stored)) :
  k1 ≠ k → (k1, v1) ∈ m → (k1, v1) ∈ Raw.set k v m.
Proof.
  intros Hne. induction m as [|[k' v'] m IH]; simpl.
  { intros H. by apply elem_of_nil in H. }
  destruct (decide (k' = k)) as [-> | Hk].
  - intros [[= -> ->] | ?]%elem_of_cons; [done | by right].
  - intros [[= -> ->] | ?]%elem_of_cons; [left | right; by apply IH].
Qed.

Lemma raw_nameIndex_nonempty (n : option string) (index : nat) :
  Raw.nameIndex n index ≠ "".
Proof.
  unfold Raw.nameIndex. destruct (default "undefined" n); [done|].
  rewrite append_cons. discriminate.
Qed.

Lemma raw_forEach_from_app (l1 l2 : list Raw.Item) (index : nat)
    (st : Raw.State) :
  Raw.forEach_from index (l1 ++ l2) st
  = Raw.forEach_from index l1 st
    ≫= Raw.forEach_from (index + length l1) l2.
Proof.
  revert index st.
  induction l1 as [|[|e] l1 IH]; intros index st; simpl; [|done|].
  - by rewrite Nat.add_0_r.
  - rewrite IH. by replace (S index + length l1) with (index + S (length l1))
      by lia.
Qed.

(** The loop throws exactly when the array has an element that is [null]
    or [undefined]. *)
Lemma raw_forEach_from_None (l : list Raw.Item) (index : nat)
    (st : Raw.State) :
  Raw.forEach_from index l st = None ↔ Raw.Nullish ∈ l.
Proof.
  revert index st. induction l as [|[|e] l IH]; intros index st; simpl.
  - split; [done | by intros H%elem_of_nil].
  - split; [intros _; left | done].
  - rewrite IH, elem_of_cons. split; [by right | by intros [? | ?]].
Qed.

Lemma raw_forEach_from_seen (l : list Raw.Item) (index : nat)
    (st st' : Raw.State) (n : option string) :
  Raw.forEach_from index l st = Some st' →
  n ∈ Raw.seenNames st' →
  n ∈ Raw.seenNames st ∨ ∃ e, Raw.Value e ∈ l ∧ Meta.name e = n.
Proof.
  revert index st. induction l as [|[|e] l IH]; intros index st; simpl.
  - intros [= <-]. by left.
  - done.
  - intros Hrun Hn. destruct (IH _ _ Hrun Hn) as [Hs | (e' & ? & ?)].
    + simpl in Hs. apply elem_of_union in Hs as [->%elem_of_singleton | ?];
        [right; exists e; split; [left | done] | by left].
    + right. exists e'. split; [by right | done].
Qed.

(** A key that is [undefined] or the empty string, once it is a seen name,
    is never chosen again. *)
Lemma raw_uniqueKey_ne (st : Raw.State) (index : nat) (e : Meta.Entry)
    (n : option string) :
  n ∈ (Raw.templateMap st).*1 → n ∈ Raw.seenNames st →
  n = None ∨ n = Some "" →
  Raw.uniqueKey st index e ≠ n.
Proof.
  intros Hkey Hseen Hn. unfold Raw.uniqueKey.
  destruct (Raw.has _ _ || Raw.falsyKey _) eqn:Hfb.
  - case_bool_decide as Hname.
    + destruct Hn as [-> | ->]; [done|]. intros [= Heq].
      by apply raw_nameIndex_nonempty in Heq.
    + congruence.
  - apply orb_false_iff in Hfb as [Hhas _].
    unfold Raw.has in Hhas. apply bool_decide_eq_false in Hhas. congruence.
Qed.

Lemma raw_forEach_from_persists (l : list Raw.Item) (index : nat)
    (st st' : Raw.State) (n : option string) (v : Raw.Stored) :
  Raw.forEach_from index l st = Some st' →
  (n, v) ∈ Raw.templateMap st → n ∈ Raw.seenNames st →
  n = None ∨ n = Some "" →
  (n, v) ∈ Raw.templateMap st'.
Proof.
  revert index st. induction l as [|[|e] l IH]; intros index st; simpl.
  - by intros [= <-].
  - done.
  - intros Hrun Hin Hseen Hn.
    apply (IH _ _ Hrun); [|simpl; apply elem_of_union; by right|done].
    simpl. apply raw_set_other; [|done].
    intros Heq. symmetry in Heq. revert Heq.
    apply raw_uniqueKey_ne; [|done..].
    by apply (list_elem_of_fmap_2' fst _ (n, v)).
Qed.

(** A record for which the fallback to the name is taken and whose name,
    [undefined] or empty, was not seen before, is in the result under that
    name, whatever follows it. *)
Lemma raw_nameless_kept (pre post : list Raw.Item) (e : Meta.Entry)
    (st1 : Raw.State) :
  Raw.forEach_from 0 pre Raw.init = Some st1 →
  Raw.Nullish ∉ post →
  Raw.has (Meta.id e) (Raw.templateMap st1) || Raw.falsyKey (Meta.id e)
  = true →
  Meta.name e = None ∨ Meta.name e = Some "" →
  Meta.name e ∉ Raw.seenNames st1 →
  ∃ out, Raw.uniqueTemplates (pre ++ Raw.Value e :: post) = Some out
         ∧ {| Raw.stored_id := Meta.name e; Raw.stored_from := e |} ∈ out.
Proof.
  intros Hpre Hpost Hfb Hname Hunseen.
  set (st2 := Raw.step st1 (length pre) e).
  destruct (Raw.forEach_from (S (length pre)) post st2) as [st'|] eqn:Hrun;
    [|by apply raw_forEach_from_None in Hrun].
  assert (Raw.uniqueKey st1 (length pre) e = Meta.name e) as Hkey.
  { unfold Raw.uniqueKey. rewrite Hfb. by rewrite bool_decide_eq_false_2. }
  assert (Raw.forEach_from 0 (pre ++ Raw.Value e :: post) Raw.init
          = Some st') as Hall.
  { rewrite raw_forEach_from_app, Hpre. simpl. exact Hrun. }
  exists (Raw.templateMap st').*2. split.
  - unfold Raw.uniqueTemplates. rewrite Hall. by destruct pre.
  - apply (list_elem_of_fmap_2' snd _
             (Meta.name e,
              {| Raw.stored_id := Meta.name e; Raw.stored_from := e |}));
      [|done].
    apply (raw_forEach_from_persists _ _ _ _ _ _ Hrun); [| |done].
    + subst st2. simpl. rewrite Hkey. apply raw_set_stored.
    + subst st2. simpl. apply elem_of_union. left. by apply elem_of_singleton.
Qed.

Lemma raw_set_key_mono (k k1 : option string) (v : Raw.Stored)
    (m : list (option string * Raw.Stored)) :
  k1 ∈ m.*1 → k1 ∈ (Raw.set k v m).*1.
Proof.
  intros ([k' v1] & -> & Hin)%list_elem_of_fmap. simpl.
  destruct (decide (k' = k)) as [-> | Hne].
  - apply (list_elem_of_fmap_2' fst _ (k, v)); [apply raw_set_stored | done].
  - apply (list_elem_of_fmap_2' fst _ (k', v1)); [|done].
    by apply raw_set_other.
Qed.

(** Once the loop has passed a record with a usable id, that id is a key
    of the map. *)
Lemma raw_forEach_from_id_key (l : list Raw.Item) (index : nat)
    (st st' : Raw.State) (k : option string) :
  Raw.forEach_from index l st = Some st' →
  k ∈ (Raw.templateMap st).*1
  ∨ (Raw.falsyKey k = false ∧ ∃ e, Raw.Value e ∈ l ∧ Meta.id e = k) →
  k ∈ (Raw.templateMap st').*1.
Proof.
  revert index st. induction l as [|[|e] l IH]; intros index st; simpl.
  - intros [= <-] [? | (_ & e & He%elem_of_nil & _)]; done.
  - done.
  - intros Hrun Hk. apply (IH _ _ Hrun).
    destruct Hk as [Hin | (Hf & e' & [[= ->] | He']%elem_of_cons & Hid)].
    + left. simpl. by apply raw_set_key_mono.
    + left. simpl. subst k. unfold Raw.uniqueKey.
      destruct (Raw.has (Meta.id e) (Raw.templateMap st)) eqn:Hhas.
      * apply raw_set_key_mono.
        unfold Raw.has in Hhas. by apply bool_decide_eq_true in Hhas.
      * rewrite Hf. simpl.
        apply (list_elem_of_fmap_2' fst _
                 (Meta.id e, {| Raw.stored_id := Meta.id e;
                                Raw.stored_from := e |})); [|done].
        apply raw_set_stored.
    + right. split; [done|]. by exists e'.
Qed.

(** C7 (amended). The normalizer neither skips a record nor gives a
    diagnostic. An element that is [null] or [undefined] makes it throw:
    normalization is aborted, and this is the only way it fails. In an
    array without such an element, a record for which the fallback to the
    name is taken (its id is missing or empty, or is the id of an earlier
    record) and whose name is missing or empty and was not seen before is
    part of the result, with that name as its id, whatever follows it.
    Skipping with a warning and going on is what the maintenance script
    does: an array element that is not an object, or has no non-empty id,
    only adds a warning that names its position, and the entries kept from
    the whole array are those kept from the array without that element. *)
Theorem malformed_records
    (item : Meta.Item) (st : Meta.Loop) (index : nat)
    (before after : list Meta.Item)
    (pre post : list Raw.Item) (e : Meta.Entry) :
  Meta.valid item = None →
  (∃ w, Meta.loop_step st index item = Meta.warn w st
        ∧ (w = Meta.SkipInvalid index ∨ ∃ n, w = Meta.SkipNoId index n))
  ∧ Meta.unique (Meta.forEach_from 0 (before ++ item :: after) Meta.loop_init)
    = Meta.unique (Meta.forEach_from 0 (before ++ after) Meta.loop_init)
  ∧ (∀ templates,
       Raw.uniqueTemplates templates = None ↔ Raw.Nullish ∈ templates)
  ∧ (Raw.Nullish ∉ pre ++ Raw.Value e :: post →
     (Raw.falsyKey (Meta.id e) = true
      ∨ ∃ e', Raw.Value e' ∈ pre ∧ Meta.id e' = Meta.id e) →
     Meta.name e = None ∨ Meta.name e = Some "" →
     (∀ e', Raw.Value e' ∈ pre → Meta.name e' ≠ Meta.name e) →
     ∃ out, Raw.uniqueTemplates (pre ++ Raw.Value e :: post) = Some out
            ∧ {| Raw.stored_id := Meta.name e; Raw.stored_from := e |} ∈ out).
Proof.
  intros Hv. split_and!.
  - by apply loop_step_skip.
  - rewrite !forEach_from_unique, !omap_app. simpl. by rewrite Hv.
  - intros templates. unfold Raw.uniqueTemplates.
    destruct templates as [|x l].
    { split; [done | by intros H%elem_of_nil]. }
    rewrite <- (raw_forEach_from_None (x :: l) 0 Raw.init).
    by destruct (Raw.forEach_from 0 (x :: l) Raw.init).
  - intros Hnull Hfallback Hname Hfresh.
    destruct (Raw.forEach_from 0 pre Raw.init) as [st1|] eqn:Hpre.
    2:{ apply raw_forEach_from_None in Hpre. exfalso. apply Hnull.
        apply elem_of_app. by left. }
    apply (raw_nameless_kept pre post e st1); [done | | | done |].
    + intros Hin. apply Hnull. apply elem_of_app. right. by right.
    + destruct (Raw.falsyKey (Meta.id e)) eqn:Hf; [apply orb_true_r|].
      destruct Hfallback as [? | (e' & He' & Hid)]; [done|].
      rewrite orb_false_r. unfold Raw.has. apply bool_decide_eq_true.
      apply (raw_forEach_from_id_key _ _ _ _ _ Hpre).
      right. split; [done|]. by exists e'.
    + intros Hseen.
      apply (raw_forEach_from_seen _ _ _ _ _ Hpre) in Hseen
        as [Hs | (e' & He' & Heq)]; [by apply not_elem_of_empty in Hs|].
      by apply (Hfresh e').
Qed.

Lemma malformed_records_witness :
  let nameless := {| Meta.id := None; Meta.name := None; Meta.rest := "x" |} in
  Meta.unique (Meta.forEach_from 0 sampleData Meta.loop_init)
  = [entry "n8n" "n8n"; entry "Ghost" "Ghost"]
  ∧ Raw.uniqueTemplates [Raw.Value (entry "n8n" "n8n"); Raw.Nullish] = None
  ∧ ∃ out,
      Raw.uniqueTemplates
        [Raw.Value (entry "n8n" "n8n"); Raw.Value nameless;
         Raw.Value (entry "n8n" "n8n again")] = Some out
      ∧ {| Raw.stored_id := None; Raw.stored_from := nameless |} ∈ out.
Proof.
  intros nameless.
  destruct (malformed_records Meta.NotObject Meta.loop_init 3
              [Meta.Obj (entry "n8n" "n8n")]
              [Meta.Obj (entry "Ghost" "Ghost");
               Meta.Obj (entry "n8n" "n8n again");
               Meta.Obj {| Meta.id := None; Meta.name := Some "anon";
                           Meta.rest := "" |}]
              [Raw.Value (entry "n8n" "n8n")]
              [Raw.Value (entry "n8n" "n8n again")] nameless)
    as (_ & Hrest & Hnone & Hkept); [reflexivity|].
  split_and!.
  - change sampleData with
      ([Meta.Obj (entry "n8n" "n8n")] ++ Meta.NotObject ::
       [Meta.Obj (entry "Ghost" "Ghost");
        Meta.Obj (entry "n8n" "n8n again");
        Meta.Obj {| Meta.id := None; Meta.name := Some "anon";
                    Meta.rest := "" |}]).
    rewrite Hrest. vm_compute. reflexivity.
  - apply Hnone. right. left.
  - apply Hkept.
    + intros Hin. simpl in Hin.
      repeat (apply elem_of_cons in Hin as [Hin | Hin]; [discriminate|]).
      by apply elem_of_nil in Hin.
    + by left.
    + by left.
    + intros e' [= ->]%list_elem_of_singleton. discriminate.
Defined.

(** ** Query debouncer *)

Module DebounceFacts.
Import Debounce.

Lemma foldl_fire (l : list Timer) (s : State) :
  now (foldl fire s l) = now s
  ∧ value (foldl fire s l) = value s
  ∧ timers (foldl fire s l) = timers s
  ∧ handler (foldl fire s l) = handler s
  ∧ emitted (foldl fire s l)
    = emitted s ++ ((λ tm, (due tm, captured tm)) <$> l).
Proof.
  revert s. induction l as [|tm l IH]; intros s; simpl.
  { by rewrite app_nil_r. }
  destruct (IH (fire s tm)) as (-> & -> & -> & -> & ->). simpl.
  by rewrite <- app_assoc.
Qed.

Lemma advance_fields (t : nat) (s : State) :
  now (advance t s) = t `max` now s
  ∧ value (advance t s) = value s
  ∧ timers (advance t s)
    = filter (λ tm, ¬ due tm ≤ t `max` now s) (timers s)
  ∧ handler (advance t s) = handler s
  ∧ emitted (advance t s)
    = emitted s ++ ((λ tm, (due tm, captured tm))
                      <$> filter (λ tm, due tm ≤ t `max` now s) (timers s)).
Proof.
  unfold advance.
  match goal with
  | |- context [foldl fire ?s0 ?l] => exact (foldl_fire l s0)
  end.
Qed.

Lemma advance_now (t : nat) (s : State) :
  now (advance t s) = t `max` now s.
Proof. apply advance_fields. Qed.

Lemma advance_value (t : nat) (s : State) :
  value (advance t s) = value s.
Proof. apply advance_fields. Qed.

Lemma advance_timers (t : nat) (s : State) :
  timers (advance t s)
  = filter (λ tm, ¬ due tm ≤ t `max` now s) (timers s).
Proof. apply advance_fields. Qed.

Lemma advance_handler (t : nat) (s : State) :
  handler (advance t s) = handler s.
Proof. apply advance_fields. Qed.

Lemma advance_emitted (t : nat) (s : State) :
  emitted (advance t s)
  = emitted s ++ ((λ tm, (due tm, captured tm))
                    <$> filter (λ tm, due tm ≤ t `max` now s) (timers s)).
Proof. apply advance_fields. Qed.

Lemma one_timer_length (s : State) : one_timer s → length (timers s) ≤ 1.
Proof. intros [-> | (tm & -> & _)]; simpl; lia. Qed.

Lemma one_timer_advance (t : nat) (s : State) :
  one_timer s → one_timer (advance t s).
Proof.
  intros [H | (tm & H & Hh)]; unfold one_timer;
    rewrite advance_timers, advance_handler, H.
  - by left.
  - rewrite filter_singleton; [|exact []].
    destruct (decide _); [right; eauto | by left].
Qed.

Lemma one_timer_cleared (s : State) :
  one_timer s →
  filter (λ tm, Some (handle tm) ≠ handler s) (timers s) = [].
Proof.
  intros [H | (tm & H & Hh)]; rewrite H; [done|].
  rewrite filter_singleton_False; [done | exact [] |].
  rewrite Hh. by intros [].
Qed.

Lemma last_cons {A : Type} (x d : A) (l : list A) :
  List.last (x :: l) d = List.last l x.
Proof.
  revert x d. induction l as [|y l IH]; intros x d; [done|].
  change (List.last (x :: y :: l) d) with (List.last (y :: l) d).
  by rewrite !IH.
Qed.

Section WithDelay.
Variable delay : nat.

Lemma pending_one_timer (s : State) (t : nat) (v : string)
    (E : list (nat * string)) :
  pending delay s t v E → one_timer s.
Proof. intros (_ & _ & _ & h & Ht & Hh). right. eauto. Qed.

Lemma one_timer_mount (t : nat) (v : string) :
  one_timer (mount delay t v).
Proof. right. eexists. split; [done|]. done. Qed.

Lemma one_timer_render (t : nat) (v : string) (s : State) :
  one_timer s → one_timer (render delay t v s).
Proof.
  intros Hs. apply (one_timer_advance t) in Hs as Hs1.
  unfold render. destruct (decide _); [done|].
  right. simpl. rewrite (one_timer_cleared _ Hs1). simpl.
  eexists. split; [done|]. done.
Qed.

Lemma one_timer_run (events : list (nat * string)) (s : State) :
  one_timer s → one_timer (run delay events s).
Proof.
  revert s. induction events as [|[t v] events IH]; intros s Hs; [done|].
  simpl. apply IH. by apply one_timer_render.
Qed.

(** A render that changes the value leaves the new timeout as the only
    pending one and emits nothing itself. *)
Lemma render_changed (t : nat) (v : string) (s : State) :
  one_timer s → v ≠ value s → now s ≤ t →
  pending delay (render delay t v s) t v (emitted (advance t s)).
Proof.
  intros Hs Hv Ht. apply (one_timer_advance t) in Hs as Hs1.
  unfold render. rewrite advance_value.
  destruct (decide _); [done|].
  unfold pending. simpl.
  rewrite (one_timer_cleared _ Hs1), advance_now. simpl.
  split_and!; [lia | done | done |].
  eexists. split; [|done]. do 3 f_equal. lia.
Qed.

Lemma render_rapid (t t' : nat) (v v' : string) (s : State)
    (E : list (nat * string)) :
  pending delay s t v E → t ≤ t' → t' < t + delay → v' ≠ v →
  pending delay (render delay t' v' s) t' v' E.
Proof.
  intros Hp Hle Hlt Hv.
  pose proof (pending_one_timer _ _ _ _ Hp) as Hs.
  destruct Hp as (Hnow & Hval & Hem & h & Htm & Hh).
  assert (emitted (advance t' s) = E) as <-.
  { rewrite advance_emitted, Htm, Hnow.
    rewrite filter_singleton_False; [|exact []|cbn [due]; lia].
    simpl. by rewrite app_nil_r. }
  apply render_changed; [done | congruence | lia].
Qed.

Lemma run_rapid (events : list (nat * string)) (t : nat) (v : string)
    (s : State) (E : list (nat * string)) :
  pending delay s t v E → rapid delay t events → changing v events →
  pending delay (run delay events s)
    (List.last events (t, v)).1 (List.last events (t, v)).2 E.
Proof.
  revert t v s.
  induction events as [|[t' v'] events IH]; intros t v s Hp Hr Hc; [done|].
  destruct Hr as (Hle & Hlt & Hr). destruct Hc as [Hv Hc].
  rewrite last_cons. simpl. apply IH; [|done..].
  by apply (render_rapid t t' v v').
Qed.

(** Once the quiet interval has passed the pending timeout runs. *)
Lemma advance_pending (T t : nat) (v : string) (s : State)
    (E : list (nat * string)) :
  pending delay s t v E → t + delay ≤ T →
  emitted (advance T s) = E ++ [(t + delay, v)]
  ∧ debouncedValue (advance T s) = v
  ∧ timers (advance T s) = [].
Proof.
  intros (Hnow & Hval & Hem & h & Htm & Hh) HT.
  unfold advance. rewrite Htm, Hnow.
  rewrite filter_singleton_False; [|exact []|cbn [due]; lia].
  rewrite filter_singleton_True; [|exact []|cbn [due]; lia].
  simpl. by rewrite Hem.
Qed.
End WithDelay.
End DebounceFacts.

(** C5. Take the debounced search query at any point of its life, and a
    burst of updates, each changing the query and each arriving less than
    300 ms after the previous one. From the first update of the burst until
    any time at least 300 ms after the last one, exactly one value is
    emitted: the last update's, 300 ms after it; it is then the debounced
    value and no timeout is left pending. At every point of the burst at most
    one timeout is pending. *)
Theorem debounce_burst_emits_last
    (t0 : nat) (v0 : string) (pre : list (nat * string))
    (t1 : nat) (v1 : string) (rest : list (nat * string)) (T : nat) :
  let delay := Debounce.quietInterval in
  let s0 := Debounce.run delay pre (Debounce.mount delay t0 v0) in
  let burst := (t1, v1) :: rest in
  let final := Debounce.advance T (Debounce.run delay burst s0) in
  Debounce.now s0 ≤ t1 →
  v1 ≠ Debounce.value s0 →
  Debounce.rapid delay t1 rest →
  Debounce.changing v1 rest →
  (List.last rest (t1, v1)).1 + delay ≤ T →
  Debounce.emitted final
  = Debounce.emitted (Debounce.advance t1 s0)
    ++ [((List.last rest (t1, v1)).1 + delay, (List.last rest (t1, v1)).2)]
  ∧ Debounce.debouncedValue final = (List.last rest (t1, v1)).2
  ∧ Debounce.timers final = []
  ∧ ∀ k, length (Debounce.timers (Debounce.run delay (take k burst) s0)) ≤ 1.
Proof.
  intros delay s0 burst final Hnow Hv Hrapid Hchanging HT.
  assert (Debounce.one_timer s0) as Hs0.
  { apply DebounceFacts.one_timer_run, DebounceFacts.one_timer_mount. }
  assert (Debounce.pending delay (Debounce.render delay t1 v1 s0) t1 v1
            (Debounce.emitted (Debounce.advance t1 s0))) as Hfirst.
  { by apply DebounceFacts.render_changed. }
  pose proof (DebounceFacts.run_rapid delay rest t1 v1 _ _ Hfirst Hrapid
                Hchanging) as Hlast.
  destruct (DebounceFacts.advance_pending delay T _ _ _ _ Hlast HT)
    as (Hem & Hdv & Htm).
  split_and!; [exact Hem | exact Hdv | exact Htm |].
  intros k. apply DebounceFacts.one_timer_length.
  by apply DebounceFacts.one_timer_run.
Qed.

Lemma debounce_burst_emits_last_witness :
  let final :=
    Debounce.advance 2000
      (Debounce.run 300 [(1000, "a"); (1100, "ab"); (1250, "abc")]
         (Debounce.mount 300 0 "")) in
  Debounce.emitted final = [(300, ""); (1550, "abc")]
  ∧ Debounce.debouncedValue final = "abc".
Proof.
  destruct (debounce_burst_emits_last 0 "" [] 1000 "a"
              [(1100, "ab"); (1250, "abc")] 2000) as (Hem & Hdv & _).
  - vm_compute. lia.
  - vm_compute. discriminate.
  - vm_compute. lia.
  - simpl. split; [discriminate | split; [discriminate | exact I]].
  - vm_compute. lia.
  - split; [exact Hem | exact Hdv].
Defined.

(** * Further properties *)

(** ** Catalog normalizer: clean catalogs, sizes and the origin of keys *)

Lemma with_id_same (template : Template) :
  with_id template (id template) = template.
Proof. by destruct template. Qed.

Lemma map_set_absent {V : Type} (k : string) (v : V)
    (m : list (string * V)) :
  k ∉ m.*1 → map_set k v m = m ++ [(k, v)].
Proof.
  induction m as [|[k' v'] m IH]; [done|].
  rewrite fmap_cons. cbn [fst]. intros [Hne Hm]%not_elem_of_cons.
  cbn [map_set]. destruct (decide (k' = k)); [done|].
  by rewrite IH.
Qed.

Lemma map_set_length {V : Type} (k : string) (v : V)
    (m : list (string * V)) :
  length m ≤ length (map_set k v m) ≤ S (length m).
Proof.
  induction m as [|[k' v'] m IH]; simpl; [lia|].
  destruct (decide (k' = k)); simpl; lia.
Qed.

Lemma forEach_from_app (index : nat) (l1 l2 : list Template)
    (st : NormState) :
  forEach_from index (l1 ++ l2) st
  = forEach_from (index + length l1) l2 (forEach_from index l1 st).
Proof.
  revert index st. induction l1 as [|t l1 IH]; intros index st; simpl.
  - by rewrite Nat.add_0_r.
  - rewrite IH. f_equal. lia.
Qed.

Lemma forEach_from_clean (templates : list Template) (index : nat)
    (st : NormState) :
  NoDup (id <$> templates) →
  (∀ t, t ∈ templates → id t ≠ "" ∧ id t ∉ (templateMap st).*1) →
  templateMap (forEach_from index templates st)
  = templateMap st ++ ((λ t, (id t, t)) <$> templates).
Proof.
  revert index st.
  induction templates as [|t ts IH]; intros index st Hnd Hfresh; simpl.
  { by rewrite app_nil_r. }
  rewrite fmap_cons in Hnd. apply NoDup_cons in Hnd as [Hhd Hnd].
  destruct (Hfresh t) as [Hne Hnew]; [left|].
  assert (templateMap (norm_step st index t)
          = templateMap st ++ [(id t, t)]) as Hstep.
  { simpl. rewrite uniqueKey_keeps_id by done.
    rewrite with_id_same. by apply map_set_absent. }
  rewrite IH, Hstep; [by rewrite <- app_assoc | done |].
  intros t' Hin. destruct (Hfresh t') as [Hne' Hnew']; [by right|].
  split; [done|]. rewrite Hstep, fmap_app. simpl.
  rewrite elem_of_app, list_elem_of_singleton. intros [?|Heq]; [done|].
  apply Hhd. rewrite <- Heq. by apply list_elem_of_fmap_2.
Qed.

Lemma uniqueTemplates_clean (templates : list Template) :
  NoDup (id <$> templates) →
  (∀ t, t ∈ templates → id t ≠ "") →
  uniqueTemplates templates = templates.
Proof.
  intros Hnd Hne. unfold uniqueTemplates.
  destruct templates as [|t ts]; [done|].
  rewrite forEach_from_clean; [|done|].
  - unfold map_values. simpl. f_equal.
    rewrite <- list_fmap_compose. by rewrite list_fmap_id.
  - intros t' Hin. split; [by apply Hne|]. simpl. apply not_elem_of_nil.
Qed.

(** X1. A catalog whose raw ids are non-empty and pairwise distinct is
    returned as it is: same records, same order. *)
Theorem uniqueTemplates_clean_identity (templates : list Template) :
  NoDup (id <$> templates) →
  (∀ t, t ∈ templates → id t ≠ "") →
  uniqueTemplates templates = templates.
Proof. apply uniqueTemplates_clean. Qed.

Lemma uniqueTemplates_clean_identity_witness :
  uniqueTemplates [mkT "redis" "Redis" ["cache"]; mkT "ghost" "Ghost" ["cms"]]
  = [mkT "redis" "Redis" ["cache"]; mkT "ghost" "Ghost" ["cms"]].
Proof.
  apply uniqueTemplates_clean_identity.
  - apply (bool_decide_unpack _). vm_compute. exact I.
  - apply Forall_forall, (bool_decide_unpack _). vm_compute. exact I.
Defined.

Lemma uniqueKey_cases (st : NormState) (index : nat) (template : Template) :
  (uniqueKey st index template = id template ∧ id template ≠ "")
  ∨ uniqueKey st index template = name template
  ∨ uniqueKey st index template = name template +:+ "-" +:+ pretty index.
Proof.
  unfold uniqueKey.
  destruct (map_has _ _ || falsy _) eqn:Hfb.
  - case_bool_decide; [right; by right | right; by left].
  - left. split; [done|]. apply orb_false_iff in Hfb as [_ Hf].
    unfold falsy in Hf. by apply bool_decide_eq_false in Hf.
Qed.

Lemma append_nonempty (a b : string) : a ≠ "" → a +:+ b ≠ "".
Proof. destruct a; [done|]. intros _. rewrite append_cons. discriminate. Qed.

Lemma uniqueKey_nonempty (st : NormState) (index : nat) (template : Template) :
  name template ≠ "" → uniqueKey st index template ≠ "".
Proof.
  intros Hn.
  destruct (uniqueKey_cases st index template) as [[-> ?] | [-> | ->]];
    [done | done | by apply append_nonempty].
Qed.

Lemma forEach_from_keys_nonempty (templates : list Template) (index : nat)
    (st : NormState) :
  (∀ t, t ∈ templates → name t ≠ "") →
  (∀ k, k ∈ (templateMap st).*1 → k ≠ "") →
  ∀ k, k ∈ (templateMap (forEach_from index templates st)).*1 → k ≠ "".
Proof.
  revert index st.
  induction templates as [|t ts IH]; intros index st Hn Hk; simpl; [done|].
  apply IH; [intros t' ?; apply Hn; by right|].
  intros k. simpl. rewrite map_set_keys.
  destruct (map_has _ _); [apply Hk|].
  rewrite elem_of_app, list_elem_of_singleton. intros [?| ->]; [by apply Hk|].
  apply uniqueKey_nonempty, Hn. left.
Qed.

Lemma uniqueTemplates_ids_keys (templates : list Template) :
  templates ≠ [] →
  id <$> uniqueTemplates templates
  = (templateMap (forEach_from 0 templates norm_init)).*1.
Proof.
  intros Hne. unfold uniqueTemplates. destruct templates as [|t ts]; [done|].
  destruct (forEach_from_inv (t :: ts) (t :: ts) 0 norm_init) as [_ Hval];
    [done | apply norm_init_inv |].
  apply values_ids_keys. intros k v Hin. by destruct (Hval k v Hin).
Qed.

(** X2. On a catalog in which every record has a non-empty name,
    normalizing twice gives the same result as normalizing once. *)
Theorem uniqueTemplates_idempotent (templates : list Template) :
  (∀ t, t ∈ templates → name t ≠ "") →
  uniqueTemplates (uniqueTemplates templates) = uniqueTemplates templates.
Proof.
  intros Hn. destruct templates as [|t ts]; [done|].
  apply uniqueTemplates_clean; [apply uniqueTemplates_ids_NoDup|].
  intros v Hv.
  apply (forEach_from_keys_nonempty (t :: ts) 0 norm_init Hn).
  { intros k Hk. by apply elem_of_nil in Hk. }
  rewrite <- uniqueTemplates_ids_keys by done.
  by apply list_elem_of_fmap_2.
Qed.

Lemma uniqueTemplates_idempotent_witness :
  uniqueTemplates (uniqueTemplates [dupA0; dupA1; dupA2])
  = uniqueTemplates [dupA0; dupA1; dupA2].
Proof.
  apply uniqueTemplates_idempotent.
  apply Forall_forall, (bool_decide_unpack _). vm_compute. exact I.
Defined.

Lemma forEach_from_length (templates : list Template) (index : nat)
    (st : NormState) :
  length (templateMap st)
  ≤ length (templateMap (forEach_from index templates st))
  ≤ length (templateMap st) + length templates.
Proof.
  revert index st.
  induction templates as [|t ts IH]; intros index st; simpl; [lia|].
  specialize (IH (S index) (norm_step st index t)).
  pose proof (map_set_length (uniqueKey st index t)
                (with_id t (uniqueKey st index t)) (templateMap st)).
  simpl in IH. lia.
Qed.

(** X3. The normalized catalog is never longer than the input, and it is
    empty only for the empty input. *)
Theorem uniqueTemplates_length (templates : list Template) :
  length (uniqueTemplates templates) ≤ length templates
  ∧ (uniqueTemplates templates = [] ↔ templates = []).
Proof.
  unfold uniqueTemplates, map_values.
  destruct templates as [|t ts]; [done|].
  rewrite length_fmap.
  pose proof (forEach_from_length (t :: ts) 0 norm_init) as [_ Hub].
  pose proof (forEach_from_length ts 1 (norm_step norm_init 0 t)) as [Hlb _].
  pose proof (map_set_length (uniqueKey norm_init 0 t)
                (with_id t (uniqueKey norm_init 0 t)) []) as [_ ?].
  simpl in *. split; [lia|]. split; [|done].
  intros Hnil%fmap_nil_inv. rewrite Hnil in Hlb. simpl in Hlb. lia.
Qed.

(** X4. The last record of the input is always part of the normalized
    catalog, under the key chosen for it: only earlier records can be
    replaced. *)
Theorem uniqueTemplates_keeps_last (templates : list Template)
    (template : Template) :
  let st := forEach_from 0 templates norm_init in
  with_id template (uniqueKey st (length templates) template)
  ∈ uniqueTemplates (templates ++ [template]).
Proof.
  intros st. unfold uniqueTemplates, map_values.
  destruct (templates ++ [template]) as [|t0 l0] eqn:Heq.
  { by destruct templates. }
  rewrite <- Heq, forEach_from_app. simpl.
  apply (list_elem_of_fmap_2' snd _ (uniqueKey st (length templates) template,
    with_id template (uniqueKey st (length templates) template))); [|done].
  apply map_set_stored.
Qed.

Lemma forEach_from_origin (templates : list Template) (index : nat)
    (st : NormState) (k : string) (v : Template) :
  (k, v) ∈ templateMap (forEach_from index templates st) →
  (k, v) ∈ templateMap st
  ∨ ∃ j t, templates !! j = Some t ∧ v = with_id t k
           ∧ (k = id t ∨ k = name t
              ∨ k = name t +:+ "-" +:+ pretty (index + j)).
Proof.
  revert index st.
  induction templates as [|t ts IH]; intros index st; simpl; [by left|].
  intros [Hin | (j & t' & Hj & -> & Hk)]%IH.
  - simpl in Hin. apply map_set_elem in Hin as [[= -> ->] | Hin]; [|by left].
    right. exists 0, t. split_and!; [done..|]. rewrite Nat.add_0_r.
    destruct (uniqueKey_cases st index t) as [[-> _] | [-> | ->]]; auto.
  - right. exists (S j), t'. split_and!; [done..|].
    by replace (index + S j) with (S index + j) by lia.
Qed.

(** X5. Every record of the normalized catalog is the input record at some
    position with only [id] replaced, and its [id] is that record's raw id,
    its name, or its name followed by a dash and that position. *)
Theorem uniqueTemplates_key_origin (templates : list Template)
    (v : Template) :
  v ∈ uniqueTemplates templates →
  ∃ j t, templates !! j = Some t ∧ v = with_id t (id v)
         ∧ (id v = id t ∨ id v = name t
            ∨ id v = name t +:+ "-" +:+ pretty j).
Proof.
  unfold uniqueTemplates, map_values.
  destruct templates as [|t0 ts]; [intros H; by apply elem_of_nil in H|].
  intros ([k v'] & -> & Hin)%list_elem_of_fmap.
  apply forEach_from_origin in Hin as [Hin | (j & t & Hj & -> & Hk)].
  { by apply elem_of_nil in Hin. }
  exists j, t. simpl. done.
Qed.

Lemma uniqueTemplates_key_origin_witness :
  ∃ j t, [dupA0; dupA1; dupA2] !! j = Some t
         ∧ with_id dupA2 "n-1" = with_id t "n-1"
         ∧ ("n-1" = id t ∨ "n-1" = name t
            ∨ "n-1" = name t +:+ "-" +:+ pretty j).
Proof.
  apply (uniqueTemplates_key_origin [dupA0; dupA1; dupA2]
           (with_id dupA2 "n-1")).
  assert (uniqueTemplates [dupA0; dupA1; dupA2]
          = [dupA0; with_id dupA2 "n-1"]) as -> by (vm_compute; reflexivity).
  right. left.
Defined.

(** ** Filter pipeline: blank queries, narrowing and keys *)

Lemma searchStep_blank (fuse_search : Fuse → string → list FuseResult)
    (catalog : list Template) (q : string) :
  trim q = "" → searchStep fuse_search catalog q = catalog.
Proof. intros Hq. unfold searchStep. by rewrite Hq. Qed.

(** X6. A query that is empty or consists of white space only applies no
    text filter: the search is not consulted, the result is the result for
    the empty query, and without selected tags it is the whole catalog. *)
Theorem filteredTemplates_blank_query
    (fuse_search fuse_search' : Fuse → string → list FuseResult)
    (catalog : list Template) (q : string) (selectedTags : list string) :
  trim q = "" →
  filteredTemplates fuse_search catalog q selectedTags
  = filteredTemplates fuse_search' catalog "" selectedTags
  ∧ filteredTemplates fuse_search catalog q [] = catalog
  ∧ filteredTemplates fuse_search catalog q selectedTags
    `sublist_of` catalog.
Proof.
  intros Hq. rewrite !filteredTemplates_steps, !searchStep_blank by done.
  split_and!; [done..|].
  unfold tagStep. case_bool_decide; [apply sublist_filter | done].
Qed.

Lemma filteredTemplates_blank_query_witness :
  filteredTemplates (λ _ _, []) [ghost0; ghost1] "  " ["blog"] = [ghost0].
Proof.
  destruct (filteredTemplates_blank_query (λ _ _, []) (λ _ _, [])
              [ghost0; ghost1] "  " ["blog"]) as (-> & _);
    [vm_compute; reflexivity|].
  vm_compute. reflexivity.
Defined.

Lemma hasAllTags_app (tags1 tags2 : list string) (template : Template) :
  hasAllTags (tags1 ++ tags2) template
  ↔ hasAllTags tags1 template ∧ hasAllTags tags2 template.
Proof.
  rewrite !hasAllTags_spec. split.
  - intros H. split; intros tag Hin; apply H, elem_of_app; auto.
  - intros [H1 H2] tag [Hin | Hin]%elem_of_app; auto.
Qed.

Lemma tagStep_filter (selectedTags : list string) (filtered : list Template) :
  tagStep selectedTags filtered
  = filter (λ template, hasAllTags selectedTags template) filtered.
Proof.
  unfold tagStep. case_bool_decide as Hlen; [done|].
  destruct selectedTags; [|simpl in Hlen; lia].
  symmetry. induction filtered as [|t l IH]; [done|].
  rewrite filter_cons_True by done. by rewrite IH.
Qed.

(** X7. Selecting more tags only narrows the result: the result for a
    larger selection is a sub-sequence of the result for the smaller one,
    and it is what the tag filter for the added tags leaves of it. *)
Theorem filteredTemplates_more_tags
    (fuse_search : Fuse → string → list FuseResult)
    (catalog : list Template) (q : string) (selectedTags more : list string) :
  filteredTemplates fuse_search catalog q (selectedTags ++ more)
  = filter (λ t, hasAllTags more t)
      (filteredTemplates fuse_search catalog q selectedTags)
  ∧ filteredTemplates fuse_search catalog q (selectedTags ++ more)
    `sublist_of` filteredTemplates fuse_search catalog q selectedTags.
Proof.
  assert (filteredTemplates fuse_search catalog q (selectedTags ++ more)
          = filter (λ t, hasAllTags more t)
              (filteredTemplates fuse_search catalog q selectedTags)) as ->.
  { rewrite !filteredTemplates_steps, !tagStep_filter, list_filter_filter.
    apply list_filter_iff. intros t. rewrite hasAllTags_app. tauto. }
  split; [done | apply sublist_filter].
Qed.

(** X8. Only the set of selected tags matters: two selections with the
    same elements, in any order and with any repetitions, give the same
    result. *)
Theorem filteredTemplates_tags_as_set
    (fuse_search : Fuse → string → list FuseResult)
    (catalog : list Template) (q : string) (tags1 tags2 : list string) :
  (∀ tag, tag ∈ tags1 ↔ tag ∈ tags2) →
  filteredTemplates fuse_search catalog q tags1
  = filteredTemplates fuse_search catalog q tags2.
Proof.
  intros Hsame. rewrite !filteredTemplates_steps, !tagStep_filter.
  apply list_filter_iff. intros t. rewrite !hasAllTags_spec.
  split; intros H tag Hin; apply H, Hsame, Hin.
Qed.

Lemma filteredTemplates_tags_as_set_witness :
  filteredTemplates (λ _ _, []) [ghost0; ghost1] "" ["blog"; "cms"; "blog"]
  = filteredTemplates (λ _ _, []) [ghost0; ghost1] "" ["cms"; "blog"].
Proof.
  apply filteredTemplates_tags_as_set. intros tag.
  rewrite !elem_of_cons. tauto.
Defined.

Lemma filteredTemplates_submseteq
    (fuse_search : Fuse → string → list FuseResult)
    (catalog : list Template) (q : string) (selectedTags : list string) :
  (∀ f q', item <$> fuse_search f q' ⊆+ collection f) →
  filteredTemplates fuse_search catalog q selectedTags ⊆+ catalog.
Proof.
  intros Hsearch. rewrite filteredTemplates_steps, tagStep_filter.
  transitivity (searchStep fuse_search catalog q).
  { apply sublist_submseteq, sublist_filter. }
  unfold searchStep. destruct (truthy _); [|done].
  unfold fuse. destruct catalog as [|t l]; [done|].
  apply (Hsearch {| collection := t :: l; options := gridOptions |}).
Qed.

(** X9. If the search returns records of the indexed collection, each at
    most once, then the records shown for a normalized catalog have pairwise
    distinct ids (the ids are the keys of the rendered cards), whatever the
    query and the selected tags. *)
Theorem filteredTemplates_ids_NoDup
    (fuse_search : Fuse → string → list FuseResult)
    (templates : list Template) (q : string) (selectedTags : list string) :
  (∀ f q', item <$> fuse_search f q' ⊆+ collection f) →
  NoDup (id <$> filteredTemplates fuse_search (uniqueTemplates templates)
                  q selectedTags).
Proof.
  intros Hsearch.
  pose proof (filteredTemplates_submseteq fuse_search
                (uniqueTemplates templates) q selectedTags Hsearch) as Hsub.
  apply submseteq_sublist_r in Hsub as (l & Hperm & Hl).
  rewrite Hperm. eapply sublist_NoDup; [apply uniqueTemplates_ids_NoDup|].
  by apply fmap_sublist.
Qed.

Lemma filteredTemplates_ids_NoDup_witness :
  let search := λ (f : Fuse) (_ : string),
                  (λ t, {| item := t; refIndex := 0 |})
                    <$> reverse (collection f) in
  NoDup (id <$> filteredTemplates search
                  (uniqueTemplates [dupA0; dupA1; dupA2]) "n" []).
Proof.
  intros search. apply filteredTemplates_ids_NoDup.
  intros f q'. unfold search.
  assert (∀ l : list Template,
            item <$> ((λ t, {| item := t; refIndex := 0 |}) <$> l) = l) as ->.
  { induction l as [|x l IH]; [done|]. by rewrite !fmap_cons, IH. }
  apply Permutation_submseteq, reverse_Permutation.
Defined.

(** ** The [useFuseSearch] hook: the two entry points *)

(** X10. For a query with a character that is not white space, [search]
    returns the items of the results of [searchWithDetails], in the same
    order. *)
Theorem hook_search_items_of_details
    (fuse_search : Fuse → string → list FuseResult)
    (templates : list Template) (query : string) :
  trim query ≠ "" →
  FuseHook.search fuse_search templates query
  = item <$> FuseHook.searchWithDetails fuse_search templates query.
Proof.
  intros Hq. unfold FuseHook.search, FuseHook.searchWithDetails.
  destruct (FuseHook.fuse templates) eqn:Hf.
  - assert (truthy (trim query) = true) as ->; [|done].
    unfold truthy, falsy. by rewrite bool_decide_eq_false_2.
  - by destruct templates.
Qed.

Lemma hook_search_items_of_details_witness :
  FuseHook.search (λ _ _, [{| item := ghost1; refIndex := 1 |}])
    [ghost0; ghost1] " gho" = [ghost1].
Proof.
  rewrite hook_search_items_of_details; [|vm_compute; discriminate].
  vm_compute. reflexivity.
Defined.

(** ** Query debouncer: settling, lag and what is emitted *)

Module DebounceMore.
Import Debounce.

Lemma foldl_fire_debounced (l : list Timer) (s : State) :
  debouncedValue (foldl fire s l)
  = default (debouncedValue s) (captured <$> last l).
Proof.
  revert s. induction l as [|tm l IH]; intros s; [done|].
  cbn [foldl]. rewrite IH, last_cons. by destruct (last l).
Qed.

Lemma advance_debounced (t : nat) (s : State) :
  debouncedValue (advance t s)
  = default (debouncedValue s)
      (captured <$> last (filter (λ tm, due tm ≤ t `max` now s) (timers s))).
Proof.
  unfold advance.
  match goal with
  | |- context [foldl fire ?s0 ?l] => exact (foldl_fire_debounced l s0)
  end.
Qed.

Section WithDelay.
Variable delay : nat.

(** Either no timeout is pending and the debounced value is the current
    value, or the one pending timeout carries the current value and is due
    at most [delay] from now. *)
Lemma settling_mount (t : nat) (v : string) :
  let s := mount delay t v in
  (timers s = [] ∧ debouncedValue s = value s)
  ∨ ∃ tm, timers s = [tm] ∧ handler s = Some (handle tm)
          ∧ captured tm = value s ∧ due tm ≤ now s + delay.
Proof. right. eexists. simpl. split_and!; done. Qed.

Lemma settling_advance (t : nat) (s : State) :
  ((timers s = [] ∧ debouncedValue s = value s)
   ∨ ∃ tm, timers s = [tm] ∧ handler s = Some (handle tm)
           ∧ captured tm = value s ∧ due tm ≤ now s + delay) →
  let s' := advance t s in
  (timers s' = [] ∧ debouncedValue s' = value s')
  ∨ ∃ tm, timers s' = [tm] ∧ handler s' = Some (handle tm)
          ∧ captured tm = value s' ∧ due tm ≤ now s' + delay.
Proof.
  intros [[Ht Hd] | (tm & Ht & Hh & Hc & Hdue)]; simpl;
    rewrite DebounceFacts.advance_timers, DebounceFacts.advance_value,
      DebounceFacts.advance_handler, DebounceFacts.advance_now,
      advance_debounced, Ht.
  - left. done.
  - destruct (decide (due tm ≤ t `max` now s)) as [Hfire | Hwait].
    + left. rewrite filter_singleton_False by (exact [] || lia).
      rewrite filter_singleton_True by (exact [] || done). done.
    + right. exists tm.
      rewrite filter_singleton_True by (exact [] || done).
      split_and!; [done..|]. lia.
Qed.

Lemma settling_render (t : nat) (v : string) (s : State) :
  ((timers s = [] ∧ debouncedValue s = value s)
   ∨ ∃ tm, timers s = [tm] ∧ handler s = Some (handle tm)
           ∧ captured tm = value s ∧ due tm ≤ now s + delay) →
  let s' := render delay t v s in
  (timers s' = [] ∧ debouncedValue s' = value s')
  ∨ ∃ tm, timers s' = [tm] ∧ handler s' = Some (handle tm)
          ∧ captured tm = value s' ∧ due tm ≤ now s' + delay.
Proof.
  intros Hs. apply (settling_advance t) in Hs as Hs1. simpl in *.
  unfold render. destruct (decide _); [done|].
  right. simpl.
  assert (one_timer (advance t s)) as Hone.
  { destruct Hs1 as [[? _] | (tm & ? & ? & _)]; [by left | right; eauto]. }
  rewrite (DebounceFacts.one_timer_cleared _ Hone). simpl.
  eexists. split_and!; done.
Qed.

Lemma settling_run (events : list (nat * string)) (s : State) :
  ((timers s = [] ∧ debouncedValue s = value s)
   ∨ ∃ tm, timers s = [tm] ∧ handler s = Some (handle tm)
           ∧ captured tm = value s ∧ due tm ≤ now s + delay) →
  let s' := run delay events s in
  (timers s' = [] ∧ debouncedValue s' = value s')
  ∨ ∃ tm, timers s' = [tm] ∧ handler s' = Some (handle tm)
          ∧ captured tm = value s' ∧ due tm ≤ now s' + delay.
Proof.
  revert s. induction events as [|[t v] events IH]; intros s Hs; [done|].
  simpl. apply IH. by apply settling_render.
Qed.

Lemma settled (events : list (nat * string)) (t0 : nat) (v0 : string)
    (T : nat) :
  let s := run delay events (mount delay t0 v0) in
  now s + delay ≤ T →
  debouncedValue (advance T s) = value s ∧ timers (advance T s) = [].
Proof.
  intros s HT. subst s.
  destruct (settling_run events (mount delay t0 v0) (settling_mount t0 v0))
    as [[Ht Hd] | (tm & Ht & Hh & Hc & Hdue)]; simpl in *.
  - rewrite advance_debounced, DebounceFacts.advance_timers, Ht. done.
  - rewrite advance_debounced, DebounceFacts.advance_timers, Ht.
    rewrite filter_singleton_True by (exact [] || lia).
    rewrite filter_singleton_False by (exact [] || lia). done.
Qed.

Lemma lag (events : list (nat * string)) (t0 : nat) (v0 : string)
    (t : nat) (v : string) (T : nat) :
  let s := run delay events (mount delay t0 v0) in
  now s ≤ t → v ≠ value s → t ≤ T → T < t + delay →
  debouncedValue (advance T (render delay t v s))
  = debouncedValue (advance t s)
  ∧ emitted (advance T (render delay t v s)) = emitted (advance t s)
  ∧ value (advance T (render delay t v s)) = v.
Proof.
  intros s Hnow Hv HtT HT.
  assert (one_timer s) as Hone.
  { apply DebounceFacts.one_timer_run, DebounceFacts.one_timer_mount. }
  pose proof (DebounceFacts.render_changed delay t v s Hone Hv Hnow)
    as (Hn & Hval & Hem & h & Htm & Hh).
  rewrite advance_debounced, DebounceFacts.advance_emitted,
    DebounceFacts.advance_value, Htm, Hn, Hval, Hem.
  rewrite filter_singleton_False by (exact [] || (cbn [due]; lia)).
  simpl. rewrite app_nil_r. split_and!; [|done..].
  unfold render. rewrite DebounceFacts.advance_value.
  destruct (decide _); done.
Qed.

(** Every value emitted, and every value a pending timeout carries, is one
    of [vals]. *)
Lemma values_render (t : nat) (v : string) (s : State) (vals : list string) :
  (∀ e, e ∈ emitted s → e.2 ∈ vals) →
  (∀ tm, tm ∈ timers s → captured tm ∈ vals) →
  let s' := render delay t v s in
  (∀ e, e ∈ emitted s' → e.2 ∈ vals ++ [v])
  ∧ (∀ tm, tm ∈ timers s' → captured tm ∈ vals ++ [v]).
Proof.
  intros Hem Htm.
  assert ((∀ e, e ∈ emitted (advance t s) → e.2 ∈ vals)
          ∧ (∀ tm, tm ∈ timers (advance t s) → captured tm ∈ vals))
    as [Hem1 Htm1].
  { rewrite DebounceFacts.advance_emitted, DebounceFacts.advance_timers.
    split.
    - intros e [He | He]%elem_of_app; [by apply Hem|].
      apply list_elem_of_fmap in He as (tm & -> & [_ Hin]%list_elem_of_filter).
      by apply Htm.
    - intros tm [_ Hin]%list_elem_of_filter. by apply Htm. }
  simpl. unfold render. destruct (decide _).
  - split; intros x Hx; apply elem_of_app; left; auto.
  - simpl. split.
    + intros e He. apply elem_of_app. left. by apply Hem1.
    + intros tm [[_ Hin]%list_elem_of_filter | ->%list_elem_of_singleton]
        %elem_of_app; apply elem_of_app; [left; by apply Htm1 | right; left].
Qed.

Lemma values_run (events : list (nat * string)) (s : State)
    (vals : list string) :
  (∀ e, e ∈ emitted s → e.2 ∈ vals) →
  (∀ tm, tm ∈ timers s → captured tm ∈ vals) →
  (∀ e, e ∈ emitted (run delay events s) → e.2 ∈ vals ++ events.*2)
  ∧ (∀ tm, tm ∈ timers (run delay events s) →
       captured tm ∈ vals ++ events.*2).
Proof.
  revert s vals.
  induction events as [|[t v] events IH]; intros s vals Hem Htm; simpl.
  { rewrite app_nil_r. done. }
  destruct (values_render t v s vals Hem Htm) as [Hem' Htm'].
  destruct (IH _ _ Hem' Htm') as [H1 H2].
  split; intros x Hx; [apply H1 in Hx | apply H2 in Hx];
    by rewrite <- app_assoc in Hx.
Qed.
End WithDelay.
End DebounceMore.

(** X11. However the query was updated, once 300 ms have passed since the
    last render the debounced query equals the query and no timeout is
    pending. *)
Theorem debounce_settles (events : list (nat * string)) (t0 : nat)
    (v0 : string) (T : nat) :
  let s := Debounce.run Debounce.quietInterval events
             (Debounce.mount Debounce.quietInterval t0 v0) in
  Debounce.now s + Debounce.quietInterval ≤ T →
  Debounce.debouncedValue (Debounce.advance T s) = Debounce.value s
  ∧ Debounce.timers (Debounce.advance T s) = [].
Proof. apply DebounceMore.settled. Qed.

Lemma debounce_settles_witness :
  Debounce.debouncedValue
    (Debounce.advance 1000
       (Debounce.run 300 [(100, "a"); (200, "a"); (450, "b")]
          (Debounce.mount 300 0 ""))) = "b".
Proof.
  destruct (debounce_settles [(100, "a"); (200, "a"); (450, "b")] 0 "" 1000)
    as [H _]; [vm_compute; lia | exact H].
Defined.

(** X12. After an update that changes the query at time [t], and until
    300 ms later, the debounced query is still what it was at [t] and
    nothing has been emitted for the update. *)
Theorem debounce_lags (events : list (nat * string)) (t0 : nat) (v0 : string)
    (t : nat) (v : string) (T : nat) :
  let delay := Debounce.quietInterval in
  let s := Debounce.run delay events (Debounce.mount delay t0 v0) in
  Debounce.now s ≤ t → v ≠ Debounce.value s → t ≤ T → T < t + delay →
  Debounce.debouncedValue (Debounce.advance T (Debounce.render delay t v s))
  = Debounce.debouncedValue (Debounce.advance t s)
  ∧ Debounce.emitted (Debounce.advance T (Debounce.render delay t v s))
    = Debounce.emitted (Debounce.advance t s)
  ∧ Debounce.value (Debounce.advance T (Debounce.render delay t v s)) = v.
Proof. apply DebounceMore.lag. Qed.

Lemma debounce_lags_witness :
  Debounce.debouncedValue
    (Debounce.advance 1299
       (Debounce.render 300 1000 "ab"
          (Debounce.run 300 [(500, "a")] (Debounce.mount 300 0 "")))) = "a".
Proof.
  destruct (debounce_lags [(500, "a")] 0 "" 1000 "ab" 1299) as (H & _);
    [vm_compute; lia | vm_compute; discriminate | lia | vm_compute; lia |].
  etransitivity; [exact H|]. vm_compute. reflexivity.
Defined.

(** X13. Whatever the sequence of renders, at most one timeout is pending
    afterwards, also after any amount of time has passed. *)
Theorem debounce_one_pending_timer (events : list (nat * string))
    (t0 : nat) (v0 : string) (T : nat) :
  let s := Debounce.run Debounce.quietInterval events
             (Debounce.mount Debounce.quietInterval t0 v0) in
  length (Debounce.timers s) ≤ 1
  ∧ length (Debounce.timers (Debounce.advance T s)) ≤ 1.
Proof.
  intros s.
  assert (Debounce.one_timer s) as Hone.
  { apply DebounceFacts.one_timer_run, DebounceFacts.one_timer_mount. }
  split; apply DebounceFacts.one_timer_length; [done|].
  by apply DebounceFacts.one_timer_advance.
Qed.

(** X14. The debouncer only emits values it was given: every emitted value
    is the initial query or the query of one of the renders. *)
Theorem debounce_emits_given_values (events : list (nat * string))
    (t0 : nat) (v0 : string) (T : nat) (e : nat * string) :
  e ∈ Debounce.emitted
        (Debounce.advance T
           (Debounce.run Debounce.quietInterval events
              (Debounce.mount Debounce.quietInterval t0 v0))) →
  e.2 ∈ v0 :: events.*2.
Proof.
  rewrite DebounceFacts.advance_emitted.
  destruct (DebounceMore.values_run Debounce.quietInterval events
              (Debounce.mount Debounce.quietInterval t0 v0) [v0])
    as [Hem Htm]; simpl.
  - intros e' He'. by apply elem_of_nil in He'.
  - intros tm ->%list_elem_of_singleton. left.
  - intros [He | He]%elem_of_app; [by apply Hem|].
    apply list_elem_of_fmap in He as (tm & -> & [_ Hin]%list_elem_of_filter).
    by apply Htm.
Qed.

Lemma debounce_emits_given_values_witness :
  (1550, "abc").2 ∈ "" :: [(1000, "a"); (1100, "ab"); (1250, "abc")].*2.
Proof.
  apply (debounce_emits_given_values
           [(1000, "a"); (1100, "ab"); (1250, "abc")] 0 "" 2000).
  assert (Debounce.emitted
            (Debounce.advance 2000
               (Debounce.run Debounce.quietInterval
                  [(1000, "a"); (1100, "ab"); (1250, "abc")]
                  (Debounce.mount Debounce.quietInterval 0 "")))
          = [(300, ""); (1550, "abc")]) as -> by (vm_compute; reflexivity).
  right. left.
Defined.

(** ** Maintenance script: statistics, ids, re-runs *)

Lemma loop_step_counts (st : Meta.Loop) (index : nat) (item : Meta.Item) :
  let st' := Meta.loop_step st index item in
  length (Meta.unique st') + length (Meta.warnings st')
  = length (Meta.unique st) + length (Meta.warnings st) + 1
  ∧ length (Meta.unique st') + length (Meta.duplicates st')
    = length (Meta.unique st) + length (Meta.duplicates st)
      + length (omap Meta.valid [item]).
Proof.
  destruct item as [|e]; simpl; [rewrite length_app; simpl; lia|].
  destruct (Meta.id e) as [i|]; [|simpl; rewrite length_app; simpl; lia].
  destruct (falsy i); [simpl; rewrite length_app; simpl; lia|].
  case_bool_decide; simpl; rewrite !length_app; simpl; lia.
Qed.

Lemma forEach_from_counts (data : list Meta.Item) (index : nat)
    (st : Meta.Loop) :
  let st' := Meta.forEach_from index data st in
  length (Meta.unique st') + length (Meta.warnings st')
  = length (Meta.unique st) + length (Meta.warnings st) + length data
  ∧ length (Meta.unique st') + length (Meta.duplicates st')
    = length (Meta.unique st) + length (Meta.duplicates st)
      + length (omap Meta.valid data).
Proof.
  revert index st.
  induction data as [|item data IH]; intros index st; [simpl; lia|].
  change (item :: data) with ([item] ++ data) at 3.
  rewrite omap_app, length_app. cbn [Meta.forEach_from length].
  destruct (IH (S index) (Meta.loop_step st index item)) as [IH1 IH2].
  destruct (loop_step_counts st index item) as [S1 S2].
  cbn zeta in *. lia.
Qed.

(** X16. The statistics add up: every element of the array is either kept
    or warned about, and every valid element is either kept or counted as
    a removed duplicate. *)
Theorem dedupeAndSortMeta_stats
    (JSON_parse : string → option Meta.Json)
    (JSON_stringify : list Meta.Entry → string)
    (localeCompare : string → string → Z)
    (filePath : string) (now : N) (w w' : Meta.World)
    (stats : Meta.Stats) (warned : list Meta.Warning)
    (c : string) (data : list Meta.Item) :
  Meta.files w !! filePath = Some c →
  JSON_parse c = Some (Meta.JArray data) →
  Meta.dedupeAndSortMeta JSON_parse JSON_stringify localeCompare
    filePath now w = Meta.Return stats warned w' →
  Meta.original stats = length data
  ∧ Meta.original stats = Meta.final stats + length warned
  ∧ Meta.final stats + Meta.duplicatesRemoved stats
    = length (omap Meta.valid data)
  ∧ Meta.duplicatesRemoved stats = length (Meta.stat_duplicates stats).
Proof.
  intros Hf Hp. unfold Meta.dedupeAndSortMeta. rewrite Hf, Hp.
  intros [= <- <- <-]. simpl.
  destruct (forEach_from_counts data 0 Meta.loop_init) as [H1 H2].
  simpl in H1, H2.
  rewrite (Permutation_length (sort_Permutation localeCompare _)). lia.
Qed.

Lemma dedupeAndSortMeta_stats_witness :
  ∃ stats warned w',
    Meta.dedupeAndSortMeta (λ _, Some (Meta.JArray sampleData)) joinIds
      byteCompare "meta.json" 7 sampleWorld = Meta.Return stats warned w'
    ∧ Meta.original stats = 5 ∧ Meta.final stats = 2
    ∧ Meta.duplicatesRemoved stats = 1 ∧ length warned = 3.
Proof.
  eexists _, _, _. split; [reflexivity|].
  destruct (dedupeAndSortMeta_stats (λ _, Some (Meta.JArray sampleData))
              joinIds byteCompare "meta.json" 7 sampleWorld _ _ _
              "[raw]" sampleData eq_refl eq_refl eq_refl) as (_ & _ & _ & _).
  vm_compute. done.
Defined.

Lemma firstOccurrences_ids (seen : gset string) (l : list Meta.Entry)
    (i : string) :
  i ∈ Meta.idOf <$> firstOccurrences seen l
  ↔ i ∈ Meta.idOf <$> l ∧ i ∉ seen.
Proof.
  revert seen. induction l as [|e l IH]; intros seen.
  { split; [intros H; by apply elem_of_nil in H | by intros [H%elem_of_nil _]]. }
  cbn [firstOccurrences]. case_bool_decide as Hseen.
  - rewrite IH, fmap_cons, elem_of_cons. split; [tauto|].
    intros [[-> | ?] ?]; [done | tauto].
  - rewrite !fmap_cons, !elem_of_cons, IH, elem_of_union, elem_of_singleton.
    split.
    + intros [-> | [? ?]]; [by auto | tauto].
    + intros [[-> | ?] ?]; [by left|].
      destruct (decide (i = Meta.idOf e)); [by left | right; tauto].
Qed.

(** X17. No id is lost and none is invented: the ids of the list the script
    writes are exactly the ids of the valid elements of the array. *)
Theorem dedupe_keeps_every_id (localeCompare : string → string → Z)
    (data : list Meta.Item) (i : string) :
  i ∈ Meta.idOf <$> Meta.sort localeCompare
        (Meta.unique (Meta.forEach_from 0 data Meta.loop_init))
  ↔ i ∈ Meta.idOf <$> omap Meta.valid data.
Proof.
  rewrite (sort_Permutation localeCompare), forEach_from_unique. simpl.
  rewrite firstOccurrences_ids. split; [tauto|].
  intros H. split; [done | apply not_elem_of_empty].
Qed.

Lemma valid_Obj (item : Meta.Item) (e : Meta.Entry) :
  Meta.valid item = Some e → Meta.valid (Meta.Obj e) = Some e.
Proof. intros Hv. by destruct (valid_Some _ _ Hv) as (-> & _). Qed.

Lemma omap_valid_Obj (l : list Meta.Entry) :
  (∀ e, e ∈ l → Meta.valid (Meta.Obj e) = Some e) →
  omap Meta.valid (Meta.Obj <$> l) = l.
Proof.
  induction l as [|e l IH]; intros Hv; [done|].
  rewrite fmap_cons.
  change (Meta.Obj e :: (Meta.Obj <$> l))
    with ([Meta.Obj e] ++ (Meta.Obj <$> l)).
  rewrite omap_app, IH by (intros e' ?; apply Hv; by right).
  cbn [omap list_omap]. rewrite Hv by left. done.
Qed.

Lemma firstOccurrences_distinct (seen : gset string) (l : list Meta.Entry) :
  NoDup (Meta.idOf <$> l) → (∀ e, e ∈ l → Meta.idOf e ∉ seen) →
  firstOccurrences seen l = l.
Proof.
  revert seen. induction l as [|e l IH]; intros seen Hnd Hfresh; [done|].
  rewrite fmap_cons in Hnd. apply NoDup_cons in Hnd as [Hhd Hnd].
  cbn [firstOccurrences].
  rewrite bool_decide_eq_false_2 by (apply Hfresh; left).
  f_equal. apply IH; [done|].
  intros e' Hin. rewrite elem_of_union, elem_of_singleton.
  intros [Heq | Hseen].
  - apply Hhd. rewrite <- Heq. by apply list_elem_of_fmap_2.
  - by apply (Hfresh e'); [right|].
Qed.

Lemma forEach_from_quiet (l : list Meta.Entry) (index : nat) (st : Meta.Loop) :
  (∀ e, e ∈ l → Meta.valid (Meta.Obj e) = Some e) →
  NoDup (Meta.idOf <$> l) → (∀ e, e ∈ l → Meta.idOf e ∉ Meta.seenIds st) →
  Meta.duplicates (Meta.forEach_from index (Meta.Obj <$> l) st)
  = Meta.duplicates st
  ∧ Meta.warnings (Meta.forEach_from index (Meta.Obj <$> l) st)
    = Meta.warnings st.
Proof.
  revert index st.
  induction l as [|e l IH]; intros index st Hv Hnd Hfresh; [done|].
  rewrite fmap_cons in Hnd. rewrite fmap_cons.
  apply NoDup_cons in Hnd as [Hhd Hnd].
  cbn [Meta.forEach_from].
  pose proof (loop_step_valid st index (Meta.Obj e) e (Hv e ltac:(left)))
    as Hstep. cbn zeta in Hstep.
  rewrite bool_decide_eq_false_2 in Hstep by (apply Hfresh; left).
  destruct Hstep as [Hseen _].
  assert (Meta.duplicates (Meta.loop_step st index (Meta.Obj e))
          = Meta.duplicates st
          ∧ Meta.warnings (Meta.loop_step st index (Meta.Obj e))
            = Meta.warnings st) as [Hd Hw].
  { destruct (valid_Some _ _ (Hv e ltac:(left))) as (_ & Hid & Hne).
    simpl. rewrite Hid.
    assert (falsy (Meta.idOf e) = false) as ->
      by (unfold falsy; by apply bool_decide_eq_false).
    rewrite bool_decide_eq_false_2 by (apply Hfresh; left). done. }
  rewrite <- Hd, <- Hw. apply IH; [intros e' ?; apply Hv; by right | done |].
  intros e' Hin. rewrite Hseen, elem_of_union, elem_of_singleton.
  intros [Heq | Hs].
  - apply Hhd. rewrite <- Heq. by apply list_elem_of_fmap_2.
  - by apply (Hfresh e'); [right|].
Qed.

Lemma sort_sorted (localeCompare : string → string → Z)
    (l : list Meta.Entry) :
  Sorted (Meta.idLe localeCompare) l → Meta.sort localeCompare l = l.
Proof.
  induction 1 as [|a l Hs IH Hhd]; [done|].
  cbn [Meta.sort foldr]. fold (Meta.sort localeCompare l). rewrite IH.
  destruct Hhd as [|b l Hab]; [done|].
  cbn [Meta.insert]. by rewrite bool_decide_eq_true_2.
Qed.

(** X18. Running the deduplication and the sort again on the list the
    script wrote changes nothing: the same list comes out, no duplicate is
    found and no warning is given. *)
Theorem dedupe_sort_idempotent (localeCompare : string → string → Z)
    (data : list Meta.Item) :
  (∀ a b, (localeCompare a b ≤ 0 ∨ localeCompare b a ≤ 0)%Z) →
  let out := Meta.sort localeCompare
               (Meta.unique (Meta.forEach_from 0 data Meta.loop_init)) in
  let again := Meta.forEach_from 0 (Meta.Obj <$> out) Meta.loop_init in
  Meta.sort localeCompare (Meta.unique again) = out
  ∧ Meta.duplicates again = []
  ∧ Meta.warnings again = [].
Proof.
  intros Htotal out again.
  assert (out ≡ₚ firstOccurrences ∅ (omap Meta.valid data)) as Hperm.
  { subst out. by rewrite sort_Permutation, forEach_from_unique. }
  assert (∀ e, e ∈ out → Meta.valid (Meta.Obj e) = Some e) as Hvalid.
  { intros e He. rewrite Hperm in He.
    eapply elem_of_sublist in He; [|apply firstOccurrences_sublist].
    apply list_elem_of_omap in He as (item & _ & Hv). by eapply valid_Obj. }
  assert (NoDup (Meta.idOf <$> out)) as Hnd.
  { rewrite Hperm. apply firstOccurrences_NoDup. }
  assert (∀ e, e ∈ out → Meta.idOf e ∉ (∅ : gset string)) as Hfresh.
  { intros e _. apply not_elem_of_empty. }
  destruct (forEach_from_quiet out 0 Meta.loop_init Hvalid Hnd Hfresh)
    as [Hd Hw].
  split_and!; [|exact Hd | exact Hw].
  subst again. rewrite forEach_from_unique, omap_valid_Obj by done.
  simpl. rewrite firstOccurrences_distinct by done.
  apply sort_sorted. subst out. by apply sort_Sorted.
Qed.

Lemma dedupe_sort_idempotent_witness :
  let out := Meta.sort byteCompare
               (Meta.unique (Meta.forEach_from 0 sampleData Meta.loop_init)) in
  Meta.sort byteCompare
    (Meta.unique (Meta.forEach_from 0 (Meta.Obj <$> out) Meta.loop_init))
  = [entry "Ghost" "Ghost"; entry "n8n" "n8n"].
Proof.
  intros out.
  destruct (dedupe_sort_idempotent byteCompare sampleData byteCompare_total)
    as (H & _).
  etransitivity; [exact H|]. vm_compute. reflexivity.
Defined.

(** X19. A run touches two files only: every path other than the catalog
    file and the backup path holds afterwards what it held before, and the
    backup path is never the catalog file itself. *)
Theorem dedupeAndSortMeta_other_files
    (JSON_parse : string → option Meta.Json)
    (JSON_stringify : list Meta.Entry → string)
    (localeCompare : string → string → Z)
    (filePath : string) (now : N) (w w' : Meta.World)
    (stats : Meta.Stats) (warned : list Meta.Warning) (path : string) :
  Meta.dedupeAndSortMeta JSON_parse JSON_stringify localeCompare
    filePath now w = Meta.Return stats warned w' →
  path ≠ filePath → path ≠ Meta.backupPathOf filePath now →
  Meta.files w' !! path = Meta.files w !! path
  ∧ Meta.backupPathOf filePath now ≠ filePath.
Proof.
  unfold Meta.dedupeAndSortMeta.
  destruct (Meta.files w !! filePath) as [c|]; [|done].
  destruct (JSON_parse c) as [[data|]|]; [|done..].
  intros [= _ _ <-] Hp Hb. split; [|apply backupPathOf_fresh].
  simpl. by rewrite !lookup_insert_ne.
Qed.

Lemma dedupeAndSortMeta_other_files_witness :
  ∃ stats warned w',
    Meta.dedupeAndSortMeta (λ _, Some (Meta.JArray sampleData)) joinIds
      byteCompare "meta.json" 7 sampleWorld = Meta.Return stats warned w'
    ∧ Meta.files w' !! "README.md" = None.
Proof.
  eexists _, _, _. split; [reflexivity|].
  destruct (dedupeAndSortMeta_other_files
              (λ _, Some (Meta.JArray sampleData)) joinIds byteCompare
              "meta.json" 7 sampleWorld _ _ _ "README.md" eq_refl)
    as [-> _]; [discriminate | vm_compute; discriminate |].
  vm_compute. reflexivity.
Defined.

Lemma loop_step_seen (st : Meta.Loop) (index : nat) (item : Meta.Item)
    (x : string) :
  x ∈ Meta.seenIds (Meta.loop_step st index item) →
  x ∈ Meta.seenIds st ∨ ∃ e, item = Meta.Obj e ∧ Meta.id e = Some x.
Proof.
  destruct item as [|e]; simpl; [by left|].
  destruct (Meta.id e) as [i|] eqn:Hid; [|by left].
  destruct (falsy i); [by left|].
  case_bool_decide; simpl; [by left|].
  rewrite elem_of_union, elem_of_singleton.
  intros [-> | ?]; [right; eauto | by left].
Qed.

Lemma loop_step_duplicates (st : Meta.Loop) (index : nat) (item : Meta.Item)
    (d : Meta.Dup) :
  d ∈ Meta.duplicates (Meta.loop_step st index item) →
  d ∈ Meta.duplicates st
  ∨ ∃ e, item = Meta.Obj e ∧ Meta.id e = Some (Meta.dup_id d)
         ∧ Meta.dup_name d = Meta.nameOrUnknown e
         ∧ Meta.originalIndex d = index
         ∧ Meta.dup_id d ∈ Meta.seenIds st.
Proof.
  destruct item as [|e]; simpl; [by left|].
  destruct (Meta.id e) as [i|] eqn:Hid; [|by left].
  destruct (falsy i); [by left|].
  case_bool_decide as Hseen; simpl; [|by left].
  intros [? | ->%list_elem_of_singleton]%elem_of_app; [by left|].
  right. exists e. simpl. done.
Qed.

Lemma forEach_from_duplicates (data : list Meta.Item) (index : nat)
    (st : Meta.Loop) (d : Meta.Dup) :
  d ∈ Meta.duplicates (Meta.forEach_from index data st) →
  d ∈ Meta.duplicates st
  ∨ ∃ j e, data !! j = Some (Meta.Obj e)
           ∧ Meta.originalIndex d = index + j
           ∧ Meta.id e = Some (Meta.dup_id d)
           ∧ Meta.dup_name d = Meta.nameOrUnknown e
           ∧ (Meta.dup_id d ∈ Meta.seenIds st
              ∨ ∃ j' e', j' < j ∧ data !! j' = Some (Meta.Obj e')
                         ∧ Meta.id e' = Some (Meta.dup_id d)).
Proof.
  revert index st.
  induction data as [|item data IH]; intros index st; [by left|].
  cbn [Meta.forEach_from].
  intros [Hd | (j & e & Hj & Hidx & Hid & Hname & Hearlier)]%IH.
  - apply loop_step_duplicates in Hd
      as [? | (e & -> & Hid & Hname & Hidx & Hseen)]; [by left|].
    right. exists 0, e. split_and!; [done | lia | done | done | by left].
  - right. exists (S j), e. split_and!; [done | lia | done | done |].
    destruct Hearlier as [Hseen | (j' & e' & Hlt & Hj' & Hid')].
    + apply loop_step_seen in Hseen as [? | (e' & -> & Hid')]; [by left|].
      right. exists 0, e'. split_and!; [lia | done | done].
    + right. exists (S j'), e'. split_and!; [lia | done | done].
Qed.

(** X20. Every entry of the duplicates report points at an object of the
    array: the object at the reported position has the reported id and
    name, and an object at an earlier position has the same id. *)
Theorem dedupeAndSortMeta_duplicates_report
    (JSON_parse : string → option Meta.Json)
    (JSON_stringify : list Meta.Entry → string)
    (localeCompare : string → string → Z)
    (filePath : string) (now : N) (w w' : Meta.World)
    (stats : Meta.Stats) (warned : list Meta.Warning)
    (c : string) (data : list Meta.Item) (d : Meta.Dup) :
  Meta.files w !! filePath = Some c →
  JSON_parse c = Some (Meta.JArray data) →
  Meta.dedupeAndSortMeta JSON_parse JSON_stringify localeCompare
    filePath now w = Meta.Return stats warned w' →
  d ∈ Meta.stat_duplicates stats →
  ∃ e j' e',
    data !! Meta.originalIndex d = Some (Meta.Obj e)
    ∧ Meta.id e = Some (Meta.dup_id d)
    ∧ Meta.dup_name d = Meta.nameOrUnknown e
    ∧ j' < Meta.originalIndex d
    ∧ data !! j' = Some (Meta.Obj e')
    ∧ Meta.id e' = Some (Meta.dup_id d).
Proof.
  intros Hf Hp. unfold Meta.dedupeAndSortMeta. rewrite Hf, Hp.
  intros [= <- _ _]. simpl.
  intros [Hd | (j & e & Hj & Hidx & Hid & Hname & Hearlier)]
    %forEach_from_duplicates.
  { by apply elem_of_nil in Hd. }
  simpl in Hidx. rewrite Hidx.
  destruct Hearlier as [Hseen | (j' & e' & Hlt & Hj' & Hid')].
  { by apply not_elem_of_empty in Hseen. }
  exists e, j', e'. done.
Qed.

Lemma dedupeAndSortMeta_duplicates_report_witness :
  ∃ e j' e',
    sampleData !! 3 = Some (Meta.Obj e)
    ∧ Meta.id e = Some "n8n"
    ∧ "n8n again" = Meta.nameOrUnknown e
    ∧ j' < 3
    ∧ sampleData !! j' = Some (Meta.Obj e')
    ∧ Meta.id e' = Some "n8n".
Proof.
  apply (dedupeAndSortMeta_duplicates_report
           (λ _, Some (Meta.JArray sampleData)) joinIds byteCompare
           "meta.json" 7 sampleWorld _ _ _ "[raw]" sampleData
           {| Meta.dup_id := "n8n"; Meta.dup_name := "n8n again";
              Meta.originalIndex := 3 |} eq_refl eq_refl eq_refl).
  vm_compute. left.
Defined.

(** ** The template grid: loading the catalog *)

(** X21. Once [fetchTemplates] has run the component is no longer loading.
    The catalog in the store changes only if the response was ok and its
    JSON was read, and then no error is set; a response that is not ok
    sets the error "Failed to fetch templates", a rejected request or an
    unreadable body sets the message of its reason, and in these cases the
    store is left as it was. *)
Theorem fetchTemplates_outcome
    (fetched : Grid.Settled (Grid.Response (list Template)))
    (c : Grid.State) (s : Store.t) :
  let c' := (Grid.fetchTemplates fetched c s).1 in
  let s' := (Grid.fetchTemplates fetched c s).2 in
  Grid.loading c' = false
  ∧ Grid.view c' ≠ Grid.Skeleton
  ∧ (s' ≠ s →
     ∃ r, fetched = Grid.Fulfilled r ∧ Grid.ok r = true
          ∧ Grid.body r = Grid.Fulfilled (Store.templates s')
          ∧ Grid.error c' = Grid.error c)
  ∧ (∀ r, fetched = Grid.Fulfilled r → Grid.ok r = false →
       Grid.error c' = Some "Failed to fetch templates" ∧ s' = s)
  ∧ (∀ reason, fetched = Grid.Rejected reason →
       Grid.error c' = Some (Grid.errorMessage reason) ∧ s' = s)
  ∧ (∀ r reason, fetched = Grid.Fulfilled r → Grid.ok r = true →
       Grid.body r = Grid.Rejected reason →
       Grid.error c' = Some (Grid.errorMessage reason) ∧ s' = s).
Proof.
  intros c' s'. subst c' s'. unfold Grid.fetchTemplates, Grid.view.
  destruct fetched as [[[] [data | reason]] | reason]; simpl.
  all: split_and!; try done.
  all: try (by repeat case_match).
  all: try (intros; simplify_eq /=; done).
  intros _. eexists. split_and!; done.
Qed.

(** ** The template grid: the files of the selected template *)

Lemma textIfOk_Some (res : Grid.Response string) (t : string) :
  Grid.textIfOk res = Grid.Fulfilled (Some t) →
  Grid.ok res = true ∧ Grid.body res = Grid.Fulfilled t.
Proof.
  unfold Grid.textIfOk. destruct (Grid.ok res); [|done].
  destruct (Grid.body res); [|done]. by intros [= ->].
Qed.

(** X22. When [fetchTemplateFiles] is done the dialog is no longer loading
    and a pair of documents is set. A document is present in it only if
    the request for its URL, built from the template id, was answered with
    an ok response whose text was read; that text is the document. *)
Theorem fetchTemplateFiles_documents
    (fetch : string → Grid.Settled (Grid.Response string))
    (templateId : string) (c : Grid.State) :
  let c' := Grid.fetchTemplateFiles fetch templateId c in
  Grid.modalLoading c' = false
  ∧ ∃ files, Grid.templateFiles c' = Some files
      ∧ (∀ t, Grid.dockerCompose files = Some t →
           ∃ r, fetch (Grid.composeUrl templateId) = Grid.Fulfilled r
                ∧ Grid.ok r = true ∧ Grid.body r = Grid.Fulfilled t)
      ∧ (∀ t, Grid.config files = Some t →
           ∃ r, fetch (Grid.configUrl templateId) = Grid.Fulfilled r
                ∧ Grid.ok r = true ∧ Grid.body r = Grid.Fulfilled t).
Proof.
  intros c'. subst c'. unfold Grid.fetchTemplateFiles, Grid.tryFiles.
  split; [done|].
  destruct (fetch (Grid.composeUrl templateId)) as [r1 | e1];
    [destruct (fetch (Grid.configUrl templateId)) as [r2 | e2];
     [destruct (Grid.textIfOk r1) as [dc | e1] eqn:H1;
      [destruct (Grid.textIfOk r2) as [cf | e2] eqn:H2|]|]|];
    simpl; eexists; (split; [done|]); simpl; try (split; intros ?; done).
  split; intros t ->; eexists; (split; [done|]); by apply textIfOk_Some.
Qed.

(** X23. The two documents are all or nothing when something fails: if one
    of the two requests is rejected, or the text of an ok response cannot
    be read, both documents are absent, whatever the other request
    returned. When both requests are answered and the texts are read, each
    document is present exactly when its own response was ok. *)
Theorem fetchTemplateFiles_failures
    (fetch : string → Grid.Settled (Grid.Response string))
    (templateId : string) (c : Grid.State) :
  let c' := Grid.fetchTemplateFiles fetch templateId c in
  let none := {| Grid.dockerCompose := None; Grid.config := None |} in
  ((∃ reason, fetch (Grid.composeUrl templateId) = Grid.Rejected reason
              ∨ fetch (Grid.configUrl templateId) = Grid.Rejected reason) →
   Grid.templateFiles c' = Some none)
  ∧ (∀ r reason,
       (fetch (Grid.composeUrl templateId) = Grid.Fulfilled r
        ∨ fetch (Grid.configUrl templateId) = Grid.Fulfilled r) →
       Grid.ok r = true → Grid.body r = Grid.Rejected reason →
       Grid.templateFiles c' = Some none)
  ∧ (∀ r1 r2 dc cf,
       fetch (Grid.composeUrl templateId) = Grid.Fulfilled r1 →
       fetch (Grid.configUrl templateId) = Grid.Fulfilled r2 →
       Grid.textIfOk r1 = Grid.Fulfilled dc →
       Grid.textIfOk r2 = Grid.Fulfilled cf →
       Grid.templateFiles c'
       = Some {| Grid.dockerCompose := dc; Grid.config := cf |}
       ∧ (is_Some dc ↔ Grid.ok r1 = true)
       ∧ (is_Some cf ↔ Grid.ok r2 = true)).
Proof.
  intros c' none. subst c' none.
  unfold Grid.fetchTemplateFiles, Grid.tryFiles. split_and!.
  - intros (reason & [-> | ->]); [done|].
    by destruct (fetch (Grid.composeUrl templateId)).
  - intros r reason [-> | ->] Hok Hbody.
    + destruct (fetch (Grid.configUrl templateId)); [|done].
      unfold Grid.textIfOk at 1. by rewrite Hok, Hbody.
    + destruct (fetch (Grid.composeUrl templateId)) as [r1|]; [|done].
      destruct (Grid.textIfOk r1); [|done].
      unfold Grid.textIfOk. by rewrite Hok, Hbody.
  - intros r1 r2 dc cf -> -> H1 H2. rewrite H1, H2. split; [done|].
    unfold Grid.textIfOk in H1, H2.
    destruct (Grid.ok r1), (Grid.ok r2), (Grid.body r1), (Grid.body r2);
      simplify_eq; split; split; intros H; try done;
      try (by destruct H); by eexists.
Qed.



(** ** The template grid: tag chips *)

(** X25. Every tag of a card is accounted for: the visible chips are the
    first tags, at most three, and together with the number on the "more"
    chip they add up to the number of tags; the "more" chip is there
    exactly when a tag is hidden, and never announces zero tags. *)
Theorem tag_chips (template : Template) :
  Grid.visibleTags template `prefix_of` tags template
  ∧ length (Grid.visibleTags template) ≤ 3
  ∧ length (Grid.visibleTags template) + default 0 (Grid.moreChip template)
    = length (tags template)
  ∧ (Grid.moreChip template = None
     ↔ Grid.visibleTags template = tags template)
  ∧ ∀ n, Grid.moreChip template = Some n → 0 < n.
Proof.
  unfold Grid.visibleTags, Grid.moreChip.
  split_and!.
  - apply prefix_take.
  - rewrite length_take. lia.
  - rewrite length_take. case_bool_decide;
      [change (default 0 (Some (length (tags template) - 3)))
         with (length (tags template) - 3)
      | change (default 0 (@None nat)) with 0]; lia.
  - case_bool_decide as Hlen; split; try done.
    + intros Heq. apply (f_equal length) in Heq.
      rewrite length_take in Heq. lia.
    + intros _. apply take_ge. lia.
  - intros n. case_bool_decide; [|done]. intros [= <-]. lia.
Qed.

Lemma endsWith_app (c : ascii) (a b : string) :
  b ≠ "" → endsWith c (a +:+ b) = endsWith c b.
Proof.
  intros Hb. induction a as [|x a IH]; [done|].
  rewrite append_cons. cbn [endsWith].
  destruct (a +:+ b) eqn:Hab.
  - exfalso. destruct a; [exact (Hb Hab) | by rewrite append_cons in Hab].
  - exact IH.
Qed.

Lemma endsWith_key (c : ascii) (prefix tag : string) (tagIndex : nat) :
  endsWith c (prefix +:+ "-" +:+ tag +:+ "-" +:+ pretty tagIndex)
  = endsWith c ("-" +:+ pretty tagIndex).
Proof.
  rewrite endsWith_app by done.
  change ("-" +:+ tag +:+ "-" +:+ pretty tagIndex)
    with (String "-" (tag +:+ String "-" (pretty tagIndex))).
  change (endsWith c (String "-" (tag +:+ String "-" (pretty tagIndex))))
    with (match tag +:+ String "-" (pretty tagIndex) with
          | EmptyString => bool_decide ("-"%char = c)
          | String _ _ => endsWith c (tag +:+ String "-" (pretty tagIndex))
          end).
  destruct (tag +:+ String "-" (pretty tagIndex)) eqn:Htag.
  { by destruct tag. }
  rewrite <- Htag. by rewrite endsWith_app.
Qed.

(** X26. The keys of the tag chips of a card are pairwise distinct, also
    when the card lists the same tag more than once. *)
Theorem tagKeys_NoDup (template : Template) : NoDup (Grid.tagKeys template).
Proof.
  unfold Grid.tagKeys, Grid.visibleTags.
  assert (∀ (i j : nat) (t1 t2 : string), i < 3 → j < 3 → i ≠ j →
            id template +:+ "-" +:+ t1 +:+ "-" +:+ pretty i
            ≠ id template +:+ "-" +:+ t2 +:+ "-" +:+ pretty j) as Hne.
  { intros i j t1 t2 Hi Hj Hij Heq.
    assert (∀ c, endsWith c ("-" +:+ pretty i)
                 = endsWith c ("-" +:+ pretty j)) as Hc.
    { intros ch. rewrite <- (endsWith_key ch (id template) t1 i).
      rewrite <- (endsWith_key ch (id template) t2 j). by rewrite Heq. }
    destruct i as [|[|[|i]]];
      [specialize (Hc "0"%char) | specialize (Hc "1"%char)
      | specialize (Hc "2"%char) | lia];
      destruct j as [|[|[|j]]]; try lia;
      vm_compute in Hc; discriminate. }
  destruct (tags template) as [|a [|b [|c l]]]; simpl.
  - apply NoDup_nil_2.
  - apply NoDup_singleton.
  - apply NoDup_cons. split; [|apply NoDup_singleton].
    intros H%list_elem_of_singleton. by apply (Hne 0 1 a b) in H; [|lia..].
  - apply NoDup_cons. split.
    + intros [H | H%list_elem_of_singleton]%elem_of_cons.
      * by apply (Hne 0 1 a b) in H; [|lia..].
      * by apply (Hne 0 2 a c) in H; [|lia..].
    + apply NoDup_cons. split; [|apply NoDup_singleton].
      intros H%list_elem_of_singleton.
      by apply (Hne 1 2 b c) in H; [|lia..].
Qed.

(** ** From the catalog to the published count *)

Lemma uniqueTemplates_length_le (templates : list Template) :
  length (uniqueTemplates templates) ≤ length templates.
Proof.
  unfold uniqueTemplates, map_values. destruct templates as [|t ts]; [done|].
  rewrite length_fmap.
  pose proof (forEach_from_length (t :: ts) 0 norm_init) as [_ Hub].
  simpl in *. lia.
Qed.

(** X27. If the search returns records of the indexed collection, each at
    most once, the count published for the records shown is their number
    and it never exceeds the number of records that were fetched. *)
Theorem published_count_bound
    (fuse_search : Fuse → string → list FuseResult)
    (templates : list Template) (q : string) (selectedTags : list string)
    (s : Store.t) :
  (∀ f q', item <$> fuse_search f q' ⊆+ collection f) →
  let shown := filteredTemplates fuse_search (uniqueTemplates templates)
                 q selectedTags in
  Store.templatesCount (published shown s) = length shown
  ∧ Store.filteredTemplates (published shown s) = shown
  ∧ Store.templatesCount (published shown s) ≤ length templates.
Proof.
  intros Hsearch shown. split_and!; [done..|].
  change (Store.templatesCount (published shown s)) with (length shown).
  etransitivity; [|apply uniqueTemplates_length_le].
  apply submseteq_length. by apply filteredTemplates_submseteq.
Qed.

Lemma published_count_bound_witness :
  Store.templatesCount
    (published
       (filteredTemplates (λ _ _, []) (uniqueTemplates [ghost0; ghost1])
          "" ["cms"]) emptyStore) ≤ 2.
Proof.
  destruct (published_count_bound (λ _ _, []) [ghost0; ghost1] "" ["cms"]
              emptyStore) as (_ & _ & H).
  - intros f q'. apply submseteq_nil_l.
  - exact H.
Defined.

(** ** The two models of the normalizer agree *)

Lemma raw_set_keys (k : option string) (v : Raw.Stored)
    (m : list (option string * Raw.Stored)) :
  (Raw.set k v m).*1 = if Raw.has k m then m.*1 else m.*1 ++ [k].
Proof.
  unfold Raw.has. induction m as [|[k' v'] m IH]; [done|].
  cbn [Raw.set]. destruct (decide (k' = k)) as [-> | Hne].
  - rewrite bool_decide_eq_true_2; [done|]. rewrite fmap_cons. left.
  - rewrite !fmap_cons, IH. cbn [fst]. case_bool_decide as Hm.
    + rewrite bool_decide_eq_true_2; [done | by right].
    + rewrite bool_decide_eq_false_2; [done|].
      apply not_elem_of_cons. split; [done | exact Hm].
Qed.

Lemma raw_set_elem (k k1 : option string) (v v1 : Raw.Stored)
    (m : list (option string * Raw.Stored)) :
  (k1, v1) ∈ Raw.set k v m → (k1, v1) = (k, v) ∨ (k1, v1) ∈ m.
Proof.
  induction m as [|[k' v'] m IH]; simpl.
  - intros ->%list_elem_of_singleton. by left.
  - destruct (decide (k' = k)).
    + intros [-> | ?]%elem_of_cons; [by left | right; by right].
    + intros [-> | H]%elem_of_cons; [right; left|].
      destruct (IH H) as [? | ?]; [by left | right; by right].
Qed.

(** What relates a state of the loop on the untyped array to a state of
    the loop on the records: same keys, same seen names, and every stored
    value carries its key. *)
Lemma raw_step_agrees (rst : Raw.State) (st : NormState) (index : nat)
    (t : Template) (e : Meta.Entry) :
  Raw.ofTemplate t = Raw.Value e →
  (Raw.templateMap rst).*1 = Some <$> (templateMap st).*1 →
  (∀ n, n ∈ Raw.seenNames rst ↔ ∃ x, n = Some x ∧ x ∈ seenNames st) →
  (∀ k v, (k, v) ∈ Raw.templateMap rst → Raw.stored_id v = k) →
  (Raw.templateMap (Raw.step rst index e)).*1
  = Some <$> (templateMap (norm_step st index t)).*1
  ∧ (∀ n, n ∈ Raw.seenNames (Raw.step rst index e)
          ↔ ∃ x, n = Some x ∧ x ∈ seenNames (norm_step st index t))
  ∧ (∀ k v, (k, v) ∈ Raw.templateMap (Raw.step rst index e) →
            Raw.stored_id v = k).
Proof.
  intros [= <-] Hkeys Hseen Hids.
  assert (∀ x, Raw.has (Some x) (Raw.templateMap rst)
               = map_has x (templateMap st)) as Hhas.
  { intros x. unfold Raw.has, map_has. rewrite Hkeys.
    apply bool_decide_ext. rewrite list_elem_of_fmap. split.
    - by intros (y & [= ->] & ?).
    - intros ?. by exists x. }
  assert (Raw.uniqueKey rst index
            {| Meta.id := Some (id t); Meta.name := Some (name t);
               Meta.rest := description t |}
          = Some (uniqueKey st index t)) as Hkey.
  { unfold Raw.uniqueKey, uniqueKey. simpl. rewrite Hhas.
    destruct (map_has (id t) (templateMap st) || falsy (id t)); [|done].
    assert (bool_decide (Some (name t) ∈ Raw.seenNames rst)
            = bool_decide (name t ∈ seenNames st)) as ->.
    { apply bool_decide_ext. rewrite Hseen. split.
      - by intros (x & [= ->] & ?).
      - intros ?. by exists (name t). }
    by case_bool_decide. }
  split_and!.
  - simpl. rewrite Hkey, raw_set_keys, map_set_keys, Hhas.
    destruct (map_has _ _); [done|]. by rewrite Hkeys, fmap_app.
  - intros n. simpl.
    rewrite elem_of_union, elem_of_singleton, Hseen. split.
    + intros [-> | (x & -> & ?)].
      * exists (name t). split; [done|]. apply elem_of_union. left.
        by apply elem_of_singleton.
      * exists x. split; [done|]. apply elem_of_union. by right.
    + intros (x & -> & [->%elem_of_singleton | ?]%elem_of_union);
        [by left | right; by exists x].
  - intros k v. simpl. intros [[= -> ->] | ?]%raw_set_elem; [done|].
    by apply Hids.
Qed.

Lemma raw_forEach_from_agrees (ts : list Template) (index : nat)
    (rst : Raw.State) (st : NormState) :
  (Raw.templateMap rst).*1 = Some <$> (templateMap st).*1 →
  (∀ n, n ∈ Raw.seenNames rst ↔ ∃ x, n = Some x ∧ x ∈ seenNames st) →
  (∀ k v, (k, v) ∈ Raw.templateMap rst → Raw.stored_id v = k) →
  ∃ rst', Raw.forEach_from index (Raw.ofTemplate <$> ts) rst = Some rst'
          ∧ (Raw.templateMap rst').*1
            = Some <$> (templateMap (forEach_from index ts st)).*1
          ∧ (∀ k v, (k, v) ∈ Raw.templateMap rst' → Raw.stored_id v = k).
Proof.
  revert index rst st.
  induction ts as [|t ts IH]; intros index rst st Hkeys Hseen Hids.
  { exists rst. done. }
  rewrite fmap_cons. cbn [Raw.forEach_from Raw.ofTemplate forEach_from].
  destruct (raw_step_agrees rst st index t _ eq_refl Hkeys Hseen Hids)
    as (Hkeys' & Hseen' & Hids').
  apply IH; done.
Qed.

(** On an array of records of the [Template] shape the untyped normalizer
    does not throw and gives the records the ids the typed one gives. *)
Lemma raw_uniqueTemplates_agrees (ts : list Template) :
  ∃ out, Raw.uniqueTemplates (Raw.ofTemplate <$> ts) = Some out
         ∧ Raw.stored_id <$> out = Some <$> (id <$> uniqueTemplates ts).
Proof.
  destruct ts as [|t ts]; [by exists []|].
  destruct (raw_forEach_from_agrees (t :: ts) 0 Raw.init norm_init)
    as (rst' & Hrun & Hkeys & Hids); [done | | |].
  { intros n. split; [by intros H%not_elem_of_empty|].
    by intros (x & _ & H%not_elem_of_empty). }
  { intros k v H. by apply elem_of_nil in H. }
  exists (Raw.templateMap rst').*2. split.
  - unfold Raw.uniqueTemplates. rewrite fmap_cons in Hrun |- *.
    by rewrite Hrun.
  - rewrite uniqueTemplates_ids_keys by done. rewrite <- Hkeys.
    clear Hrun Hkeys. induction (Raw.templateMap rst') as [|[k v] m IH];
      [done|].
    rewrite !fmap_cons. cbn [fst snd]. rewrite (Hids k v) by left.
    f_equal. apply IH. intros k' v' Hin. apply Hids. by right.
Qed.
